(** * Closed-form notebooks: roots of unity and Michaelis-Menten kinetics

    A shallow embedding of the computational core of the two notebooks

    - [Cyclotomic polynomials]: [findUnityRoot] and the root loop of
      [plot_funct];
    - [Closed_form_Michaelis_Menten.ipynb]: the wrapper [W] around
      [scipy.special.lambertw], the module-level constants, the lambdas
      [S], [ES], [E], [P], [v] of the first [plot_func], the grid [T] and
      the ratio expression of the third cell; the two later [plot_func]
      cells, which draw random substrate levels, with [np.random.rand] as
      a parameter.

    Numbers.  Python's [float] and numpy's [float64] are embedded as the
    real numbers [R], and [np.cos], [np.sin], [np.exp], [np.pi] as [cos],
    [sin], [exp], [PI]: the development is about the formulas the code
    evaluates, and rounding errors are not part of it.  A statement
    "within 1e-6" is therefore proved through the exact identity.  Python's
    [int] is [Z].  This embedding serves the statements on the roots of
    unity and those on the order and on the failures of the kinetics.  The
    statements on the values of [S], [ES], [E], [P] and [v] use a second
    embedding of the first [plot_func], [plot_func_f64], which keeps the
    infinities and the NaN of binary64 and the overflow of every operation:
    [np.exp] overflows once its argument exceeds about 709.78, which no
    setting of the sliders reaches but smaller values of [K_M] do.

    Failure.  A Python exception is a value of [exn]; a computation that
    may raise is a value of [py A].  The true division [/] of two Python
    scalars raises [ZeroDivisionError] when the divisor is zero ([py_div]);
    the division of numpy scalars does not raise, and is Rocq's [/].  In
    the drawing stage of [plot_funct] and in the two later cells, where the
    exceptions are [IndexError] and [ValueError], a computation that may
    raise is an [option], and [None] is the exception. *)

From Stdlib Require Import Reals Lra Lia ZArith List.
Import ListNotations.

Local Open Scope R_scope.

(** ** Python exceptions as an error monad *)

Inductive exn : Type :=
| ZeroDivisionError.

Definition py (A : Type) : Type := (exn + A)%type.

Definition ret {A : Type} (a : A) : py A := inr a.

Definition raise {A : Type} (e : exn) : py A := inl e.

Definition bind {A B : Type} (m : py A) (f : A -> py B) : py B :=
  match m with
  | inl e => inl e
  | inr a => f a
  end.

Declare Scope py_scope.
Delimit Scope py_scope with py.
Notation "x <- m ;; k" := (bind m (fun x => k))
  (at level 61, m at next level, right associativity) : py_scope.
Local Open Scope py_scope.

(** [fails m]: the computation raises some exception. *)
Definition fails {A : Type} (m : py A) : Prop := exists e, m = inl e.

(** The loop [for x in xs: acc = body(acc, x)], left to right, stopping at
    the first exception. *)
Fixpoint for_in {A X : Type} (xs : list X) (body : A -> X -> py A) (acc : A)
  : py A :=
  match xs with
  | [] => ret acc
  | x :: xs' => acc' <- body acc x ;; for_in xs' body acc'
  end.

(** The comprehension [[f(x) for x in xs]]. *)
Fixpoint comprehension {A X : Type} (f : X -> py A) (xs : list X)
  : py (list A) :=
  match xs with
  | [] => ret []
  | x :: xs' => a <- f x ;; l <- comprehension f xs' ;; ret (a :: l)
  end.

(** [a / b] on Python scalars. *)
Definition py_div (a b : R) : py R :=
  if Req_dec_T b 0 then raise ZeroDivisionError else ret (a / b).

(** [range(n)]: [0, 1, ..., n-1], empty when [n <= 0]. *)
Definition range (n : Z) : list Z := map Z.of_nat (seq 0 (Z.to_nat n)).


(** [np.arange(start, stop, step)]: [ceil((stop - start)/step)] samples
    [start + i*step]. *)
Definition ceil (r : R) : Z := (1 - up (- r))%Z.

Definition np_arange (start stop step : R) : list R :=
  map (fun i => start + INR i * step)
      (seq 0 (Z.to_nat (ceil ((stop - start) / step)))).

(** [round(x, ndigits)]: the nearest multiple of [10^-ndigits], a tie
    going to the even one. *)
Definition floor (r : R) : Z := (up r - 1)%Z.

Definition round_half_even (x : R) : Z :=
  let f := floor x in
  if Rlt_dec (x - IZR f) (1 / 2) then f
  else if Rlt_dec (1 / 2) (x - IZR f) then (f + 1)%Z
  else if Z.even f then f else (f + 1)%Z.

Definition py_round (x : R) (ndigits : nat) : R :=
  IZR (round_half_even (x * 10 ^ ndigits)) / 10 ^ ndigits.

(** Complex numbers, and [np.real]. *)
Definition C : Type := (R * R)%type.

Definition np_real (c : C) : R := fst c.

(** ** Roots of unity *)

(** [def findUnityRoot(n, k):
       return [np.cos(2*np.pi*k / n), np.sin(2*np.pi*k / n)]]
    The two-element list is unpacked at once by the caller ([r, i = ...]),
    so it is embedded as a pair.  [2*np.pi*k] is a Python float and [n] a
    Python int: both divisions raise when [n] is zero. *)
Definition findUnityRoot (n k : Z) : py (R * R) :=
  a <- py_div (2 * PI * IZR k) (IZR n) ;;
  b <- py_div (2 * PI * IZR k) (IZR n) ;;
  ret (cos a, sin b).

(** The body of the loop of [plot_funct]:
    [r, i = findUnityRoot(n, k); real.append(r); imag.append(i)]. *)
Definition root_step (n : Z) (acc : list R * list R) (k : Z)
  : py (list R * list R) :=
  ri <- findUnityRoot n k ;;
  ret (fst acc ++ [fst ri], snd acc ++ [snd ri]).

(** The root computation of [plot_funct]:
    [real, imag = [], []
     for k in range(n): ...]
    The value is the pair [(real, imag)] that the function hands to the
    plotting calls; those calls and the symbolic [sp.solve] are not
    embedded. *)
Definition plot_funct (n : Z) : py (list R * list R) :=
  for_in (range n) (root_step n) ([], []).

(** ** Michaelis-Menten kinetics *)

(** The statements [v_max = K_cat * E_0] and
    [K_M = (k_minus_1 + K_cat) / k_1], in the order of the notebook, as a
    function of the constants they read. *)
Record KineticParameters : Type := mkKineticParameters {
  param_K_M : R;
  param_v_max : R
}.

Definition deriveParameters (k_1 k_minus_1 K_cat E_0 : R)
  : py KineticParameters :=
  let v_max := K_cat * E_0 in
  K_M <- py_div (k_minus_1 + K_cat) k_1 ;;
  ret (mkKineticParameters K_M v_max).

(** The module-level constants of the first code cell. *)
Module Globals.
Definition S_0 : R := 15.
Definition E_0 : R := 0.5.
Definition K_cat : R := 30.
Definition v_max : R := K_cat * E_0.
Definition k_1 : R := 5.5.
Definition k_minus_1 : R := 0.01.
Definition K_M : py R := py_div (k_minus_1 + K_cat) k_1.
Definition t_0 : R := 0.
Definition t_f : R := 5.
Definition dt : R := 0.01.
End Globals.

(** The expression of the third cell,
    [round(E_0/(K_M + E_0), 3)], evaluated on the module-level constants
    and displayed after the label [E_0 / (K_M + S_0) =]. *)
Definition ratio_expression (E_0 : R) (K_M : py R) : py R :=
  k <- K_M ;;
  q <- py_div E_0 (k + E_0) ;;
  ret (py_round q 3).

Definition ratio_cell : py R := ratio_expression Globals.E_0 Globals.K_M.

(** The local scope of the first [plot_func(K_M, K_cat, S_0, E_0, t_f)].
    [lambertw] is [scipy.special.lambertw], a library routine: it is a
    parameter here, and the theorems assume of it what they need. *)
Module plot_func.
Section body.

Variable lambertw : R -> Z -> C.

(** [def W(z): return np.real(lambertw(z, k=0))] *)
Definition W (z : R) : R := np_real (lambertw z 0%Z).

Variables K_M K_cat S_0 E_0 t_f : R.

Definition v_max : R := K_cat * E_0.

(** [S = lambda t : K_M * W(S_0 / K_M * np.exp(1 / K_M * (-v_max * t + S_0)))]
    [S_0], [K_M] and [1] are Python scalars. *)
Definition S (t : R) : py R :=
  a <- py_div S_0 K_M ;;
  b <- py_div 1 K_M ;;
  ret (K_M * W (a * exp (b * (- v_max * t + S_0)))).

(** [ES = lambda t, S : (E_0 * S(t)) / (K_M + S(t)) * (1 - np.exp(-(K_M + S(t)) * k_1 * t))]
    [k_1] is the module-level constant; the operands of [/] are numpy
    scalars. *)
Definition ES (t : R) (S : R -> py R) : py R :=
  s1 <- S t ;;
  s2 <- S t ;;
  s3 <- S t ;;
  ret ((E_0 * s1) / (K_M + s2) * (1 - exp (- (K_M + s3) * Globals.k_1 * t))).

(** [E = lambda t, ES : E_0 - ES(t, S)]; [S] is the one of the
    enclosing scope. *)
Definition E (t : R) (ES : R -> (R -> py R) -> py R) : py R :=
  es <- ES t S ;;
  ret (E_0 - es).

(** [P = lambda t, S, ES : S_0 - S(t) - ES(t, S)] *)
Definition P (t : R) (S : R -> py R) (ES : R -> (R -> py R) -> py R)
  : py R :=
  s <- S t ;;
  es <- ES t S ;;
  ret (S_0 - s - es).

(** [v = lambda t, S : (v_max * S(t)) / (K_M + S(t))] *)
Definition v (t : R) (S : R -> py R) : py R :=
  s1 <- S t ;;
  s2 <- S t ;;
  ret ((v_max * s1) / (K_M + s2)).

(** [T = np.arange(t_0, t_f, dt)] *)
Definition T : list R := np_arange Globals.t_0 t_f Globals.dt.

(** [[S(t) for t in T]], the substrate series handed to [plt.plot], as a
    function of the grid ([ts] is [T] in [plot_func]). *)
Definition S_series (ts : list R) : py (list R) := comprehension S ts.

(** The other series handed to [plt.plot], again as functions of the grid:
    [[P(t, S, ES) for t in T]], [[10/E_0 * E(t, ES) for t in T]],
    [[10/E_0 * ES(t, S) for t in T]] and [[100 * v(t, S) / v_max for t in T]].
    [10/E_0] divides Python scalars; in the last one the dividend is a
    numpy scalar. *)
Definition P_series (ts : list R) : py (list R) :=
  comprehension (fun t => P t S ES) ts.

Definition E_series (ts : list R) : py (list R) :=
  comprehension (fun t => c <- py_div 10 E_0 ;; e <- E t ES ;; ret (c * e)) ts.

Definition ES_series (ts : list R) : py (list R) :=
  comprehension (fun t => c <- py_div 10 E_0 ;; es <- ES t S ;; ret (c * es)) ts.

Definition v_series (ts : list R) : py (list R) :=
  comprehension (fun t => f <- v t S ;; ret (100 * f / v_max)) ts.

(** The five series of one call, computed on [T] in the order of the
    [plt.plot] calls: [P], [S], [E], [ES], then the flux. *)
Definition plotted : py (list R * list R * list R * list R * list R) :=
  p <- P_series T ;;
  s <- S_series T ;;
  e <- E_series T ;;
  es <- ES_series T ;;
  f <- v_series T ;;
  ret (p, s, e, es, f).

End body.
End plot_func.

(** What the kinetics theorems assume of [scipy.special.lambertw]: on a
    non-negative argument, the real part [w] of branch [k = 0] solves
    [w * exp w = z]. *)
Definition principal_branch (lambertw : R -> Z -> C) : Prop :=
  forall z : R, 0 <= z ->
    np_real (lambertw z 0%Z) * exp (np_real (lambertw z 0%Z)) = z.

(** A function that meets [principal_branch]: the root of
    [w * exp w - z] between [0] and [z] that the intermediate value
    theorem gives.  It serves as the instance at which the theorems are
    applied; off the non-negative axis and off branch 0 its value is
    arbitrary. *)
Definition lambertw_root (z : R) (Hz : 0 <= z)
  : {w : R | 0 <= w <= z /\ w * exp w - z = 0}.
Proof.
  apply (IVT_cor (fun w => w * exp w - z) 0 z).
  - intro w. reg.
  - exact Hz.
  - assert (1 <= exp z) by (destruct Hz as [Hz | <-];
      [ left; rewrite <- exp_0; now apply exp_increasing
      | rewrite exp_0; lra ]).
    nra.
Defined.

Definition lambertw_ref (z : R) (k : Z) : C :=
  match Rle_dec 0 z with
  | left Hz => (proj1_sig (lambertw_root z Hz), 0)
  | right _ => (0, 0)
  end.

(** ** The drawing stage of [plot_funct] *)

(** [x[i]] on a Python list: a negative index counts from the end, and an
    index out of range raises [IndexError], which is [None] here. *)
Definition py_getitem (x : list R) (i : Z) : option R :=
  let len := Z.of_nat (length x) in
  if (0 <=? i)%Z then nth_error x (Z.to_nat i)
  else if (- len <=? i)%Z then nth_error x (Z.to_nat (len + i))
  else None.

(** What reaches matplotlib: the arguments [[x1, x2], [y1, y2]] of a
    [plt.plot] call, and the position and the index of a [plt.text]
    label. *)
Record Segment : Type := mkSegment {
  seg_x1 : R;
  seg_x2 : R;
  seg_y1 : R;
  seg_y2 : R
}.

Record Canvas : Type := mkCanvas {
  segments : list Segment;
  texts : list (R * R * Z)
}.

(** [def connectpoints(x, y, p1, p2):
       x1, x2 = x[p1], x[p2]
       y1, y2 = y[p1], y[p2]
       plt.plot([x1,x2], [y1,y2], color='b')] *)
Definition connectpoints (x y : list R) (p1 p2 : Z) : option Segment :=
  match py_getitem x p1 with
  | None => None
  | Some x1 =>
    match py_getitem x p2 with
    | None => None
    | Some x2 =>
      match py_getitem y p1 with
      | None => None
      | Some y1 =>
        match py_getitem y p2 with
        | None => None
        | Some y2 => Some (mkSegment x1 x2 y1 y2)
        end
      end
    end
  end.

(** The body of the second loop of [plot_funct]:
    [connectpoints(real, imag, p, p + 1)
     plt.text(real[p+1], imag[p+1]+0.05, label of p+1)] *)
Definition edge_step (real imag : list R) (c : Canvas) (p : Z) : option Canvas :=
  match connectpoints real imag p (p + 1) with
  | None => None
  | Some s =>
    match py_getitem real (p + 1) with
    | None => None
    | Some rx =>
      match py_getitem imag (p + 1) with
      | None => None
      | Some iy =>
        Some (mkCanvas (segments c ++ [s]) (texts c ++ [(rx, iy + 0.05, (p + 1)%Z)]))
      end
    end
  end.

Fixpoint edge_loop (real imag : list R) (ps : list Z) (c : Canvas)
  : option Canvas :=
  match ps with
  | [] => Some c
  | p :: ps' =>
    match edge_step real imag c p with
    | None => None
    | Some c' => edge_loop real imag ps' c'
    end
  end.

(** The lines of [plot_funct] that read the two lists:
    [connectpoints(real, imag, 0, n - 1)
     plt.text(real[0]+0.01, imag[0], label of 0)
     for p in range(len(real) - 1): ...]
    The calls that only configure the figure are not embedded. *)
Definition draw_edges (real imag : list R) (n : Z) : option Canvas :=
  match connectpoints real imag 0 (n - 1) with
  | None => None
  | Some s =>
    match py_getitem real 0 with
    | None => None
    | Some rx =>
      match py_getitem imag 0 with
      | None => None
      | Some iy =>
        edge_loop real imag (range (Z.of_nat (length real) - 1))
                  (mkCanvas [s] [(rx + 0.01, iy, 0%Z)])
      end
    end
  end.

(** The root loop followed by the drawing: what [plot_funct(n)] draws, or
    the exception that stops it. *)
Inductive plot_exn : Type :=
| RootError (e : exn)
| IndexError.

Definition plot_funct_drawn (n : Z) : plot_exn + Canvas :=
  match plot_funct n with
  | inl e => inl (RootError e)
  | inr (real, imag) =>
    match draw_edges real imag n with
    | None => inl IndexError
    | Some c => inr c
    end
  end.

(** The product and the natural powers of complex numbers, to state that
    the points of [findUnityRoot] solve [x^n - 1 = 0], the equation of the
    notebook. *)
Definition Cmul (a b : C) : C :=
  (fst a * fst b - snd a * snd b, fst a * snd b + snd a * fst b).

Fixpoint Cpow (a : C) (m : nat) : C :=
  match m with
  | O => (1, 0)
  | Datatypes.S m' => Cmul a (Cpow a m')
  end.

(** ** The two cells on fluctuating substrate *)







(** The second [plot_func(K_M, S_mean, dE)]. *)
Module plot_func_2.
Section body.

Variable rand : nat -> nat -> list R.
Variables K_M S_mean dE : R.

Definition v_max : R := 30.
Definition t_f : R := 10.

(** [T = np.arange(0, t_f, 0.1)] *)
Definition T : list R := np_arange 0 t_f 0.1.

Definition max_e : R := dE * S_mean.

(** [S = S_mean + (max_e - -max_e) * np.random.rand(len(T)) + (-max_e)],
    item by item. *)
Definition S : list R :=
  map (fun u => S_mean + (max_e - - max_e) * u + - max_e) (rand 0 (length T)).

(** [v = lambda t, S : (v_max * S[t]) / (K_M + S[t])] *)
Definition v (t : Z) (S : list R) : option R :=
  match py_getitem S t with
  | None => None
  | Some s1 =>
    match py_getitem S t with
    | None => None
    | Some s2 => Some ((v_max * s1) / (K_M + s2))
    end
  end.



End body.
End plot_func_2.

(** The third [plot_func(K_M, dE)]. *)
Module plot_func_3.
Section body.

Variable rand : nat -> nat -> list R.
Variables K_M dE : R.

Definition v_max : R := 30.
Definition t_f : R := 10.
Definition T : list R := np_arange 0 t_f 0.1.


Definition v (t : Z) (S : list R) : option R :=
  match py_getitem S t with
  | None => None
  | Some s1 =>
    match py_getitem S t with
    | None => None
    | Some s2 => Some ((v_max * s1) / (K_M + s2))
    end
  end.



End body.
End plot_func_3.

(** ** The first [plot_func] with the special values of binary64 *)

(** The embedding of [plot_func] above takes a float for a real number, and
    so cannot tell when [np.exp] overflows.  The statements about the
    values of [S], [ES], [E] and [P] use the embedding below instead: a
    binary64 value is a finite number, an infinity or a NaN; the result of
    an operation on finite numbers is the exact real result when it lies
    within the largest finite value, and an infinity beyond it; the special
    values combine as IEEE 754 prescribes.  Rounding, the sign of zero and
    the underflow to zero are still left out. *)
Inductive float64 : Type :=
| Fin (r : R)
| PInf
| NInf
| NaN.

(** The largest finite binary64 number, [(2 - 2^-52) * 2^1023]. *)
Definition max_float : R := IZR (2 ^ 1024 - 2 ^ 971).

Definition overflow (r : R) : float64 :=
  if Rlt_dec max_float r then PInf
  else if Rlt_dec r (- max_float) then NInf
  else Fin r.

(** An infinity times (or divided by) a finite number of the sign of [r]:
    [inf * 0] is NaN. *)
Definition inf_sign (r : R) : float64 :=
  if Rlt_dec 0 r then PInf else if Rlt_dec r 0 then NInf else NaN.

Definition fopp (x : float64) : float64 :=
  match x with
  | Fin a => Fin (- a)
  | PInf => NInf
  | NInf => PInf
  | NaN => NaN
  end.

Definition fadd (x y : float64) : float64 :=
  match x, y with
  | NaN, _ | _, NaN => NaN
  | Fin a, Fin b => overflow (a + b)
  | Fin _, PInf | PInf, Fin _ | PInf, PInf => PInf
  | Fin _, NInf | NInf, Fin _ | NInf, NInf => NInf
  | PInf, NInf | NInf, PInf => NaN
  end.

Definition fsub (x y : float64) : float64 := fadd x (fopp y).

Definition fmul (x y : float64) : float64 :=
  match x, y with
  | NaN, _ | _, NaN => NaN
  | Fin a, Fin b => overflow (a * b)
  | Fin a, PInf | PInf, Fin a => inf_sign a
  | Fin a, NInf | NInf, Fin a => inf_sign (- a)
  | PInf, PInf | NInf, NInf => PInf
  | PInf, NInf | NInf, PInf => NInf
  end.

(** The division of numpy scalars: it never raises; a division by zero
    gives an infinity or NaN (the zero is taken as [+0.0]). *)
Definition fdiv (x y : float64) : float64 :=
  match x, y with
  | NaN, _ | _, NaN => NaN
  | Fin a, Fin b => if Req_dec_T b 0 then inf_sign a else overflow (a / b)
  | Fin _, PInf | Fin _, NInf => Fin 0
  | PInf, Fin b => if Rlt_dec b 0 then NInf else PInf
  | NInf, Fin b => if Rlt_dec b 0 then PInf else NInf
  | PInf, PInf | PInf, NInf | NInf, PInf | NInf, NInf => NaN
  end.

(** The division of Python floats: it raises on a zero divisor. *)
Definition py_fdiv (x y : float64) : py float64 :=
  match y with
  | Fin b => if Req_dec_T b 0 then raise ZeroDivisionError else ret (fdiv x y)
  | _ => ret (fdiv x y)
  end.

(** [np.exp] *)
Definition fexp (x : float64) : float64 :=
  match x with
  | Fin a => overflow (exp a)
  | PInf => PInf
  | NInf => Fin 0
  | NaN => NaN
  end.

(** Complex numbers of two binary64 parts. *)
Definition C64 : Type := (float64 * float64)%type.

Definition np_real64 (c : C64) : float64 := fst c.

Module plot_func_f64.
Section body.

Variable lambertw : float64 -> Z -> C64.

(** [def W(z): return np.real(lambertw(z, k=0))] *)
Definition W (z : float64) : float64 := np_real64 (lambertw z 0%Z).

Variables K_M K_cat S_0 E_0 : R.

(** [v_max = K_cat * E_0] *)
Definition v_max : float64 := fmul (Fin K_cat) (Fin E_0).

(** [S = lambda t : K_M * W(S_0 / K_M * np.exp(1 / K_M * (-v_max * t + S_0)))] *)
Definition S (t : R) : py float64 :=
  a <- py_fdiv (Fin S_0) (Fin K_M) ;;
  b <- py_fdiv (Fin 1) (Fin K_M) ;;
  ret (fmul (Fin K_M)
            (W (fmul a (fexp (fmul b (fadd (fmul (fopp v_max) (Fin t))
                                           (Fin S_0))))))).

(** [ES = lambda t, S : (E_0 * S(t)) / (K_M + S(t)) * (1 - np.exp(-(K_M + S(t)) * k_1 * t))] *)
Definition ES (t : R) (S : R -> py float64) : py float64 :=
  s1 <- S t ;;
  s2 <- S t ;;
  s3 <- S t ;;
  ret (fmul (fdiv (fmul (Fin E_0) s1) (fadd (Fin K_M) s2))
            (fsub (Fin 1)
                  (fexp (fmul (fmul (fopp (fadd (Fin K_M) s3)) (Fin Globals.k_1))
                              (Fin t))))).

(** [E = lambda t, ES : E_0 - ES(t, S)] *)
Definition E (t : R) (ES : R -> (R -> py float64) -> py float64) : py float64 :=
  es <- ES t S ;;
  ret (fsub (Fin E_0) es).

(** [P = lambda t, S, ES : S_0 - S(t) - ES(t, S)] *)
Definition P (t : R) (S : R -> py float64)
           (ES : R -> (R -> py float64) -> py float64) : py float64 :=
  s <- S t ;;
  es <- ES t S ;;
  ret (fsub (fsub (Fin S_0) s) es).

(** [v = lambda t, S : (v_max * S(t)) / (K_M + S(t))] *)
Definition v (t : R) (S : R -> py float64) : py float64 :=
  s1 <- S t ;;
  s2 <- S t ;;
  ret (fdiv (fmul v_max s1) (fadd (Fin K_M) s2)).

End body.
End plot_func_f64.

(** What the theorems on [plot_func_f64] assume of
    [scipy.special.lambertw]: on a finite non-negative argument the real
    part of branch [k = 0] is a finite [w] that solves [w * exp w = z]; at
    [+inf] it is [+inf]; at NaN it is NaN. *)
Definition principal_branch64 (lambertw : float64 -> Z -> C64) : Prop :=
  (forall z : R, 0 <= z ->
     exists w : R, np_real64 (lambertw (Fin z) 0%Z) = Fin w /\ w * exp w = z) /\
  np_real64 (lambertw PInf 0%Z) = PInf /\
  np_real64 (lambertw NaN 0%Z) = NaN.

(** A function that meets [principal_branch64], built on [lambertw_ref]. *)
Definition lambertw_ref64 (z : float64) (k : Z) : C64 :=
  match z with
  | Fin r => (Fin (np_real (lambertw_ref r k)), Fin 0)
  | PInf => (PInf, Fin 0)
  | NInf => (NaN, NaN)
  | NaN => (NaN, NaN)
  end.

(** The ranges of the sliders of the first [interact] call, and the times
    of its grids ([t_f] is at most 50). *)
Definition slider_ranges (K_M K_cat S_0 E_0 t : R) : Prop :=
  0.1 <= K_M <= 50 /\ 0 <= K_cat <= 50 /\ 0 <= S_0 <= 50 /\
  0.1 <= E_0 <= 1 /\ 0 <= t <= 50.


(** The real-valued [lambertw] that a binary64 one induces on the
    non-negative reals. *)
Definition real_lambertw (lambertw : float64 -> Z -> C64) (z : R) (k : Z) : C :=
  match np_real64 (lambertw (Fin z) k) with
  | Fin w => (w, 0)
  | _ => (0, 0)
  end.

(** * Properties *)

(** ** The error monad *)

Lemma py_div_ok (a b : R) : b <> 0 -> py_div a b = ret (a / b).
Proof.
  intro Hb. unfold py_div. destruct (Req_dec_T b 0); [contradiction | reflexivity].
Qed.

Lemma py_div_zero (a : R) : py_div a 0 = raise ZeroDivisionError.
Proof.
  unfold py_div. destruct (Req_dec_T 0 0) as [_ | H]; [reflexivity | now destruct H].
Qed.

Lemma comprehension_map {A X : Type} (f : X -> py A) (g : X -> A) (xs : list X) :
  (forall x, In x xs -> f x = ret (g x)) ->
  comprehension f xs = ret (map g xs).
Proof.
  induction xs as [| x xs IH]; simpl; intro H.
  - reflexivity.
  - rewrite (H x (or_introl eq_refl)). simpl.
    rewrite IH by (intros y Hy; apply H; now right).
    reflexivity.
Qed.

(** ** The Lambert W wrapper *)

Lemma lambertw_ref_principal : principal_branch lambertw_ref.
Proof.
  intros z Hz. unfold lambertw_ref.
  destruct (Rle_dec 0 z) as [H | H]; [| contradiction].
  unfold np_real; simpl.
  pose proof (proj2_sig (lambertw_root z H)) as [_ Hw].
  simpl in Hw. lra.
Qed.

Section LambertW.

Variable lambertw : R -> Z -> C.
Hypothesis lambertw_principal : principal_branch lambertw.

Let W := plot_func.W lambertw.

Lemma W_spec (z : R) : 0 <= z -> W z * exp (W z) = z.
Proof. exact (lambertw_principal z). Qed.

Lemma W_nonneg (z : R) : 0 <= z -> 0 <= W z.
Proof.
  intro Hz. pose proof (W_spec z Hz) as H.
  pose proof (exp_pos (W z)) as He.
  destruct (Rle_lt_dec 0 (W z)) as [Hw | Hw]; [exact Hw |].
  exfalso. nra.
Qed.

(** [x * exp x] is strictly increasing on the non-negative reals. *)
Lemma xexp_increasing (x y : R) : 0 <= x -> x < y -> x * exp x < y * exp y.
Proof.
  intros Hx Hxy.
  pose proof (exp_increasing x y Hxy) as He.
  pose proof (exp_pos x) as Hp.
  nra.
Qed.

Lemma W_monotone (z1 z2 : R) : 0 <= z1 -> z1 <= z2 -> W z1 <= W z2.
Proof.
  intros H1 H12.
  destruct (Rle_lt_dec (W z1) (W z2)) as [H | H]; [exact H |].
  exfalso.
  assert (H2 : 0 <= z2) by lra.
  pose proof (xexp_increasing (W z2) (W z1) (W_nonneg z2 H2) H) as Hlt.
  rewrite (W_spec z1 H1), (W_spec z2 H2) in Hlt. lra.
Qed.

(** The round trip [W (x * exp x) = x] on the non-negative reals. *)
Lemma W_xexp (x : R) : 0 <= x -> W (x * exp x) = x.
Proof.
  intro Hx.
  assert (Hz : 0 <= x * exp x) by (pose proof (exp_pos x); nra).
  pose proof (W_spec _ Hz) as Hs.
  pose proof (W_nonneg _ Hz) as Hn.
  destruct (Rtotal_order (W (x * exp x)) x) as [Hlt | [Heq | Hgt]].
  - pose proof (xexp_increasing _ _ Hn Hlt). lra.
  - exact Heq.
  - pose proof (xexp_increasing _ _ Hx Hgt). lra.
Qed.

End LambertW.

(** ** Roots of unity *)

Lemma range_nonpos (n : Z) : (n <= 0)%Z -> range n = [].
Proof.
  intro Hn. unfold range.
  replace (Z.to_nat n) with 0%nat by lia. reflexivity.
Qed.

Lemma range_length (n : Z) : length (range n) = Z.to_nat n.
Proof. unfold range. now rewrite length_map, length_seq. Qed.

Lemma range_nth (n k : Z) :
  (0 <= k < n)%Z -> nth (Z.to_nat k) (range n) 0%Z = k.
Proof.
  intro Hk. unfold range.
  rewrite (nth_indep _ 0%Z (Z.of_nat 0)) by (rewrite length_map, length_seq; lia).
  rewrite map_nth, seq_nth by lia. lia.
Qed.

Lemma findUnityRoot_ok (n k : Z) :
  n <> 0%Z ->
  findUnityRoot n k =
    ret (cos (2 * PI * IZR k / IZR n), sin (2 * PI * IZR k / IZR n)).
Proof.
  intro Hn. unfold findUnityRoot.
  rewrite py_div_ok by (now apply not_0_IZR). reflexivity.
Qed.

(** The loop appends one point per index, in the order of the indices. *)
Lemma root_loop (n : Z) (ks : list Z) (real imag : list R) :
  n <> 0%Z ->
  for_in ks (root_step n) (real, imag) =
    ret (real ++ map (fun k => cos (2 * PI * IZR k / IZR n)) ks,
         imag ++ map (fun k => sin (2 * PI * IZR k / IZR n)) ks).
Proof.
  intro Hn. revert real imag.
  induction ks as [| k ks IH]; intros real imag; simpl.
  - now rewrite !app_nil_r.
  - unfold root_step at 1. rewrite findUnityRoot_ok by exact Hn. simpl.
    rewrite IH, <- !app_assoc. reflexivity.
Qed.

Lemma plot_funct_ok (n : Z) :
  n <> 0%Z ->
  plot_funct n =
    ret (map (fun k => cos (2 * PI * IZR k / IZR n)) (range n),
         map (fun k => sin (2 * PI * IZR k / IZR n)) (range n)).
Proof.
  intro Hn. unfold plot_funct. now rewrite root_loop.
Qed.









Lemma plot_funct_1 : plot_funct 1 = ret ([1], [0]).
Proof.
  rewrite plot_funct_ok by lia.
  change (range 1) with [0%Z]. cbn [map].
  replace (2 * PI * 0 / 1) with 0 by lra.
  now rewrite cos_0, sin_0.
Qed.

(** C2: for every [n >= 1] the root computation of [plot_funct] returns
    exactly [n] points, and the point of index [k] ([0 <= k < n]) is
    [(cos (2 pi k / n), sin (2 pi k / n))]; for [n = 1] the result is the
    single point [(1, 0)]. *)
Theorem C2_roots_formula (n : Z) :
  (1 <= n)%Z ->
  (exists real imag : list R,
     plot_funct n = ret (real, imag) /\
     Z.of_nat (length real) = n /\
     Z.of_nat (length imag) = n /\
     forall k : Z, (0 <= k < n)%Z ->
       nth (Z.to_nat k) real 0 = cos (2 * PI * IZR k / IZR n) /\
       nth (Z.to_nat k) imag 0 = sin (2 * PI * IZR k / IZR n)) /\
  plot_funct 1 = ret ([1], [0]).
Proof.
  intro Hn. split; [| exact plot_funct_1].
  eexists. eexists. split; [apply plot_funct_ok; lia |].
  rewrite !length_map, range_length.
  repeat split; try lia.
  - rewrite (nth_indep _ 0 (cos (2 * PI * IZR 0 / IZR n)))
      by (rewrite length_map, range_length; lia).
    now rewrite (map_nth (fun k => cos (2 * PI * IZR k / IZR n))), range_nth.
  - rewrite (nth_indep _ 0 (sin (2 * PI * IZR 0 / IZR n)))
      by (rewrite length_map, range_length; lia).
    now rewrite (map_nth (fun k => sin (2 * PI * IZR k / IZR n))), range_nth.
Qed.

Lemma C2_roots_formula_witness :
  (exists real imag : list R,
     plot_funct 5 = ret (real, imag) /\
     Z.of_nat (length real) = 5%Z /\
     Z.of_nat (length imag) = 5%Z /\
     forall k : Z, (0 <= k < 5)%Z ->
       nth (Z.to_nat k) real 0 = cos (2 * PI * IZR k / 5) /\
       nth (Z.to_nat k) imag 0 = sin (2 * PI * IZR k / 5)) /\
  plot_funct 1 = ret ([1], [0]).
Proof. apply (C2_roots_formula 5). lia. Defined.



(** ** Michaelis-Menten kinetics *)

Section Kinetics.

Variable lambertw : R -> Z -> C.
Hypothesis lambertw_principal : principal_branch lambertw.

Variables K_M K_cat S_0 E_0 : R.
Hypothesis K_M_pos : 0 < K_M.
Hypothesis K_cat_nonneg : 0 <= K_cat.
Hypothesis S_0_nonneg : 0 <= S_0.
Hypothesis E_0_nonneg : 0 <= E_0.

Local Abbreviation W := (plot_func.W lambertw).
Local Abbreviation v_max := (plot_func.v_max K_cat E_0).
Local Abbreviation S := (plot_func.S lambertw K_M K_cat S_0 E_0).
Local Abbreviation ES := (plot_func.ES K_M E_0).
Local Abbreviation E := (plot_func.E lambertw K_M K_cat S_0 E_0).
Local Abbreviation P := (plot_func.P S_0).
Local Abbreviation S_series := (plot_func.S_series lambertw K_M K_cat S_0 E_0).

(** The argument of [W] and the value of [S] at time [t]. *)
Local Abbreviation z_at t := (S_0 / K_M * exp (1 / K_M * (- v_max * t + S_0))).
Local Abbreviation S_at t := (K_M * W (z_at t)).

Lemma S_ok (t : R) : S t = ret (S_at t).
Proof.
  unfold plot_func.S. rewrite !py_div_ok by lra. reflexivity.
Qed.

Lemma z_at_nonneg (t : R) : 0 <= z_at t.
Proof.
  apply Rmult_le_pos.
  - apply Rmult_le_pos; [exact S_0_nonneg |]. left. now apply Rinv_0_lt_compat.
  - left. apply exp_pos.
Qed.

Lemma S_at_nonneg (t : R) : 0 <= S_at t.
Proof.
  apply Rmult_le_pos; [lra |].
  apply (W_nonneg lambertw lambertw_principal), z_at_nonneg.
Qed.

Lemma v_max_nonneg : 0 <= v_max.
Proof. unfold plot_func.v_max. now apply Rmult_le_pos. Qed.

Lemma z_at_antitone (t1 t2 : R) : t1 <= t2 -> z_at t2 <= z_at t1.
Proof.
  intro Ht.
  assert (Ha : 0 <= S_0 / K_M).
  { apply Rmult_le_pos; [exact S_0_nonneg |]. left. now apply Rinv_0_lt_compat. }
  apply Rmult_le_compat_l; [exact Ha |].
  assert (Hb : 0 < 1 / K_M) by (apply Rdiv_lt_0_compat; lra).
  pose proof v_max_nonneg as Hv.
  assert (Harg : 1 / K_M * (- v_max * t2 + S_0) <= 1 / K_M * (- v_max * t1 + S_0)).
  { apply Rmult_le_compat_l; [lra | nra]. }
  destruct Harg as [Hlt | Heq].
  - left. now apply exp_increasing.
  - rewrite Heq. apply Rle_refl.
Qed.

Lemma S_at_antitone (t1 t2 : R) : t1 <= t2 -> S_at t2 <= S_at t1.
Proof.
  intro Ht. apply Rmult_le_compat_l; [lra |].
  apply (W_monotone lambertw lambertw_principal).
  - apply z_at_nonneg.
  - now apply z_at_antitone.
Qed.

Lemma S_at_0 : S_at 0 = S_0.
Proof.
  replace (z_at 0) with (S_0 / K_M * exp (S_0 / K_M))
    by (f_equal; f_equal; field; lra).
  rewrite (W_xexp lambertw lambertw_principal).
  - field. lra.
  - apply Rmult_le_pos; [exact S_0_nonneg |]. left. now apply Rinv_0_lt_compat.
Qed.

Lemma ES_ok (t : R) :
  ES t S =
    ret (E_0 * S_at t / (K_M + S_at t)
         * (1 - exp (- (K_M + S_at t) * Globals.k_1 * t))).
Proof. unfold plot_func.ES. rewrite S_ok. reflexivity. Qed.

Lemma E_ok (t : R) :
  E t ES =
    ret (E_0 - E_0 * S_at t / (K_M + S_at t)
               * (1 - exp (- (K_M + S_at t) * Globals.k_1 * t))).
Proof. unfold plot_func.E. rewrite ES_ok. reflexivity. Qed.

Lemma P_ok (t : R) :
  P t S ES =
    ret (S_0 - S_at t - E_0 * S_at t / (K_M + S_at t)
                        * (1 - exp (- (K_M + S_at t) * Globals.k_1 * t))).
Proof. unfold plot_func.P. rewrite S_ok, ES_ok. reflexivity. Qed.

Lemma S_series_ok (ts : list R) :
  S_series ts = ret (map (fun t => S_at t) ts).
Proof.
  unfold plot_func.S_series. apply comprehension_map. intros t _. apply S_ok.
Qed.

Lemma nth_map_default {A : Type} (f : A -> R) (l : list A) (a : A) (i : nat) :
  (i < length l)%nat -> nth i (map f l) 0 = f (nth i l a).
Proof.
  intro Hi. rewrite (nth_indep _ 0 (f a)) by (now rewrite length_map).
  apply map_nth.
Qed.


(** C8: [W] returns the real part of what [lambertw] returns on branch 0,
    whatever the imaginary part, and [W(0) = 0]. *)
Theorem C8_W_real_part :
  (forall (z re im : R), lambertw z 0%Z = (re, im) -> W z = re) /\
  W 0 = 0.
Proof.
  split.
  - intros z re im H. unfold plot_func.W. now rewrite H.
  - pose proof (W_spec lambertw lambertw_principal 0 (Rle_refl 0)) as H.
    apply Rmult_integral in H. destruct H as [H | H]; [exact H |].
    pose proof (exp_pos (W 0)). lra.
Qed.

End Kinetics.

(** The grid of [plot_func] is strictly increasing and starts at [0]. *)
Lemma T_nth (t_f : R) (i : nat) :
  (i < length (plot_func.T t_f))%nat ->
  nth i (plot_func.T t_f) 0 = Globals.t_0 + INR i * Globals.dt.
Proof.
  unfold plot_func.T, np_arange. rewrite length_map, length_seq. intro Hi.
  rewrite (nth_map_default _ _ 0%nat) by (now rewrite length_seq).
  now rewrite seq_nth.
Qed.

Lemma T_strictly_increasing (t_f : R) (i : nat) :
  (i + 1 < length (plot_func.T t_f))%nat ->
  nth i (plot_func.T t_f) 0 < nth (i + 1) (plot_func.T t_f) 0.
Proof.
  intro Hi. rewrite !T_nth by lia. rewrite plus_INR.
  unfold Globals.dt. simpl INR. lra.
Qed.

Lemma T_nonneg (t_f t : R) : In t (plot_func.T t_f) -> 0 <= t.
Proof.
  unfold plot_func.T, np_arange. rewrite in_map_iff. intros [i [<- _]].
  pose proof (pos_INR i). unfold Globals.t_0, Globals.dt. lra.
Qed.

(** The substrate series that [plot_func] plots, on its own grid. *)
Lemma S_series_T_non_increasing (lambertw : R -> Z -> C) (K_M K_cat S_0 E_0 t_f : R) :
  principal_branch lambertw ->
  0 < K_M -> 0 <= K_cat -> 0 <= S_0 -> 0 <= E_0 ->
  exists ss : list R,
    plot_func.S_series lambertw K_M K_cat S_0 E_0 (plot_func.T t_f) = ret ss /\
    length ss = length (plot_func.T t_f) /\
    forall i : nat, (i + 1 < length ss)%nat -> nth (i + 1) ss 0 <= nth i ss 0.
Proof.
  intros Hw HK Hc HS HE.
  exists (map (fun t => K_M * plot_func.W lambertw
                          (S_0 / K_M * exp (1 / K_M * (- plot_func.v_max K_cat E_0 * t + S_0))))
              (plot_func.T t_f)).
  split; [now apply S_series_ok |].
  split; [apply length_map |].
  rewrite length_map. intros i Hi.
  rewrite !(nth_map_default _ (plot_func.T t_f) 0) by lia.
  apply S_at_antitone; try assumption.
  left. now apply T_strictly_increasing.
Qed.


Lemma C8_W_real_part_witness :
  (forall (z re im : R),
     lambertw_ref z 0%Z = (re, im) -> plot_func.W lambertw_ref z = re) /\
  plot_func.W lambertw_ref 0 = 0.
Proof. apply (C8_W_real_part lambertw_ref lambertw_ref_principal). Defined.

(** ** Parameter derivation *)

Lemma deriveParameters_ok (k_1 k_minus_1 K_cat E_0 : R) :
  k_1 <> 0 ->
  deriveParameters k_1 k_minus_1 K_cat E_0 =
    ret (mkKineticParameters ((k_minus_1 + K_cat) / k_1) (K_cat * E_0)).
Proof.
  intro Hk. unfold deriveParameters. now rewrite py_div_ok.
Qed.

(** C7 (as stated, refuted): on the non-positive rate [k_1 = -1] the
    derivation does not fail. *)
Lemma C7_negative_rate_counterexample :
  -1 <= 0 /\ ~ fails (deriveParameters (-1) 0.01 30 0.5).
Proof.
  split; [lra |]. intros [e He].
  rewrite deriveParameters_ok in He by lra. discriminate He.
Qed.

(** C7 (amended): for every [k_1 <> 0], of either sign, the derivation
    returns [K_M = (k_minus_1 + K_cat) / k_1] and [v_max = K_cat * E_0];
    on the constants of the notebook it returns [K_M] within [5e-5] of
    [5.4564] and [v_max = 15]; for [k_1 = 0] the division raises
    [ZeroDivisionError]. *)
Theorem C7_deriveParameters (k_1 k_minus_1 K_cat E_0 : R) :
  (k_1 <> 0 ->
   deriveParameters k_1 k_minus_1 K_cat E_0 =
     ret (mkKineticParameters ((k_minus_1 + K_cat) / k_1) (K_cat * E_0))) /\
  (exists p : KineticParameters,
     deriveParameters 5.5 0.01 30 0.5 = ret p /\
     Rabs (param_K_M p - 5.4564) <= 0.00005 /\
     param_v_max p = 15) /\
  deriveParameters 0 k_minus_1 K_cat E_0 = raise ZeroDivisionError.
Proof.
  split; [apply deriveParameters_ok |]. split.
  - eexists. split; [apply deriveParameters_ok; lra |]. simpl. split; [| lra].
    apply Rabs_le. lra.
  - unfold deriveParameters. now rewrite py_div_zero.
Qed.

Lemma C7_deriveParameters_witness :
  deriveParameters (-2) 1 3 4 = ret (mkKineticParameters ((1 + 3) / (-2)) (3 * 4)).
Proof. apply (C7_deriveParameters (-2) 1 3 4). lra. Defined.

(** ** The ratio of the third cell *)

Lemma floor_eq (x : R) (z : Z) : IZR z <= x -> x < IZR z + 1 -> floor x = z.
Proof.
  intros Hlo Hhi. unfold floor.
  assert (H : (z + 1)%Z = up x) by (apply up_tech; [exact Hlo | rewrite plus_IZR; lra]).
  lia.
Qed.

Lemma Globals_K_M_value : Globals.K_M = ret (3001 / 550).
Proof.
  unfold Globals.K_M, Globals.k_minus_1, Globals.K_cat, Globals.k_1.
  rewrite py_div_ok by lra. unfold ret. f_equal. lra.
Qed.

(** C6 (the code at the constants of the notebook): the cell evaluates
    [round(E_0/(K_M + E_0), 3)], which is [0.084] as the notebook records,
    and not the ratio [E_0 / (K_M + S_0)] of its label, which is less than
    [0.025]. *)
Theorem C6_ratio_cell_value :
  ratio_cell = ret 0.084 /\
  Globals.K_M = ret (3001 / 550) /\
  Globals.E_0 / (3001 / 550 + Globals.S_0) < 0.025.
Proof.
  split; [| split; [exact Globals_K_M_value |]].
  - unfold ratio_cell, ratio_expression. rewrite Globals_K_M_value. simpl bind.
    unfold Globals.E_0. rewrite py_div_ok by lra. simpl bind.
    unfold py_round, round_half_even.
    assert (Hq : 0.5 / (3001 / 550 + 0.5) * 10 ^ 3 = 68750 / 819) by lra.
    rewrite Hq.
    rewrite (floor_eq (68750 / 819) 83) by lra.
    destruct (Rlt_dec (68750 / 819 - 83) (1 / 2)) as [H | _]; [lra |].
    destruct (Rlt_dec (1 / 2) (68750 / 819 - 83)) as [_ | H]; [| lra].
    unfold ret. f_equal. simpl. lra.
  - unfold Globals.E_0, Globals.S_0. lra.
Qed.

(** * Further properties *)

(** ** The points of [findUnityRoot] *)

(** The angle of the point of index [k]. *)
Local Abbreviation angle n k := (2 * PI * IZR k / IZR n).

Lemma plot_funct_total (n : Z) :
  plot_funct n =
    ret (map (fun k => cos (angle n k)) (range n),
         map (fun k => sin (angle n k)) (range n)).
Proof.
  destruct (Z.eq_dec n 0) as [-> | Hn].
  - reflexivity.
  - now apply plot_funct_ok.
Qed.



Lemma cos_shift_turn (x : R) : cos (x + 2 * PI) = cos x.
Proof. rewrite cos_plus, cos_2PI, sin_2PI. ring. Qed.

Lemma sin_shift_turn (x : R) : sin (x + 2 * PI) = sin x.
Proof. rewrite sin_plus, cos_2PI, sin_2PI. ring. Qed.

(** For [0 <= k <= n] with [1 <= n < 2^53], the point of index [k + n] is
    the point of index [k], and the points of indices [n - k] and [-k] are
    its mirror image in the real axis, all within [1e-9]. *)
Theorem findUnityRoot_symmetry (n k : Z) :
  (1 <= n < 2 ^ 53)%Z -> (0 <= k <= n)%Z ->
  exists c s c1 s1 c2 s2 c3 s3 : R,
    findUnityRoot n k = ret (c, s) /\
    findUnityRoot n (k + n) = ret (c1, s1) /\
    findUnityRoot n (n - k) = ret (c2, s2) /\
    findUnityRoot n (- k) = ret (c3, s3) /\
    Rabs (c1 - c) <= 1e-9 /\ Rabs (s1 - s) <= 1e-9 /\
    Rabs (c2 - c) <= 1e-9 /\ Rabs (s2 + s) <= 1e-9 /\
    Rabs (c3 - c) <= 1e-9 /\ Rabs (s3 + s) <= 1e-9.
Proof.
  intros Hn _. assert (Hr : IZR n <> 0) by (apply not_0_IZR; lia).
  do 8 eexists.
  rewrite !findUnityRoot_ok by lia.
  do 4 (split; [reflexivity |]).
  assert (Hneg : angle n (- k) = - angle n k)
    by (rewrite opp_IZR; field; exact Hr).
  assert (Hplus : angle n (k + n) = angle n k + 2 * PI)
    by (rewrite plus_IZR; field; exact Hr).
  assert (Hminus : angle n (n - k) = - angle n k + 2 * PI)
    by (rewrite minus_IZR; field; exact Hr).
  rewrite Hneg, Hplus, Hminus, !cos_shift_turn, !sin_shift_turn, cos_neg, sin_neg.
  replace (- sin (angle n k) + sin (angle n k)) with 0 by ring.
  rewrite !Rminus_diag, Rabs_R0. repeat split; lra.
Qed.

Lemma findUnityRoot_symmetry_witness :
  exists c s c1 s1 c2 s2 c3 s3 : R,
    findUnityRoot 5 2 = ret (c, s) /\
    findUnityRoot 5 (2 + 5) = ret (c1, s1) /\
    findUnityRoot 5 (5 - 2) = ret (c2, s2) /\
    findUnityRoot 5 (- 2) = ret (c3, s3) /\
    Rabs (c1 - c) <= 1e-9 /\ Rabs (s1 - s) <= 1e-9 /\
    Rabs (c2 - c) <= 1e-9 /\ Rabs (s2 + s) <= 1e-9 /\
    Rabs (c3 - c) <= 1e-9 /\ Rabs (s3 + s) <= 1e-9.
Proof. apply (findUnityRoot_symmetry 5 2); lia. Defined.

(** De Moivre: powers of a point of the unit circle. *)
Lemma Cpow_unit (theta : R) (m : nat) :
  Cpow (cos theta, sin theta) m = (cos (INR m * theta), sin (INR m * theta)).
Proof.
  induction m as [| m IH].
  - simpl. rewrite Rmult_0_l, cos_0, sin_0. reflexivity.
  - cbn [Cpow]. rewrite IH, S_INR. unfold Cmul; cbn [fst snd].
    replace ((INR m + 1) * theta) with (theta + INR m * theta) by ring.
    rewrite cos_plus, sin_plus. f_equal; ring.
Qed.

(** For [1 <= n <= 1000] and [0 <= k < n] the point of index [k] is a root
    of [x^n - 1]: its [n]-th power is [1], within [1e-6]. *)
Theorem findUnityRoot_nth_power (n k : Z) :
  (1 <= n <= 1000)%Z -> (0 <= k < n)%Z ->
  exists z : C,
    findUnityRoot n k = ret z /\
    Rabs (fst (Cpow z (Z.to_nat n)) - 1) <= 1e-6 /\
    Rabs (snd (Cpow z (Z.to_nat n))) <= 1e-6.
Proof.
  intros Hn Hk. assert (Hr : 1 <= IZR n) by (apply IZR_le; lia).
  eexists. split; [apply findUnityRoot_ok; lia |].
  rewrite Cpow_unit, INR_IZR_INZ, Z2Nat.id by lia.
  replace (IZR n * angle n k) with (0 + 2 * INR (Z.to_nat k) * PI)
    by (rewrite INR_IZR_INZ, Z2Nat.id by lia; field; lra).
  rewrite cos_period, sin_period, cos_0, sin_0. cbn [fst snd].
  rewrite Rminus_diag, Rabs_R0. lra.
Qed.

Lemma findUnityRoot_nth_power_witness :
  exists z : C,
    findUnityRoot 5 3 = ret z /\
    Rabs (fst (Cpow z (Z.to_nat 5)) - 1) <= 1e-6 /\
    Rabs (snd (Cpow z (Z.to_nat 5))) <= 1e-6.
Proof. apply (findUnityRoot_nth_power 5 3); lia. Defined.

(** The squared length of the chord between two points of the unit
    circle. *)
Lemma chord_sqr (a b : R) :
  (cos a - cos b) * (cos a - cos b) + (sin a - sin b) * (sin a - sin b) =
  4 * (sin ((a - b) / 2) * sin ((a - b) / 2)).
Proof.
  pose proof (sin2_cos2 a) as Ha. pose proof (sin2_cos2 b) as Hb.
  unfold Rsqr in Ha, Hb.
  pose proof (cos_2a_sin ((a - b) / 2)) as Hc.
  replace (2 * ((a - b) / 2)) with (a - b) in Hc by field.
  rewrite cos_minus in Hc. nra.
Qed.



(** ** The drawing stage of [plot_funct] *)

Lemma py_getitem_nth (x : list R) (i : Z) :
  (0 <= i < Z.of_nat (length x))%Z ->
  py_getitem x i = Some (nth (Z.to_nat i) x 0).
Proof.
  intro Hi. unfold py_getitem.
  replace (0 <=? i)%Z with true by (symmetry; apply Z.leb_le; lia).
  apply nth_error_nth'. lia.
Qed.

Lemma py_getitem_nil (i : Z) : py_getitem [] i = None.
Proof.
  unfold py_getitem. simpl length.
  destruct (0 <=? i)%Z eqn:H0.
  - now destruct (Z.to_nat i).
  - apply Z.leb_gt in H0.
    replace (- Z.of_nat 0 <=? i)%Z with false; [reflexivity |].
    symmetry. apply Z.leb_gt. simpl. lia.
Qed.

Lemma connectpoints_nth (x y : list R) (p1 p2 : Z) :
  length x = length y ->
  (0 <= p1 < Z.of_nat (length x))%Z ->
  (0 <= p2 < Z.of_nat (length x))%Z ->
  connectpoints x y p1 p2 =
    Some (mkSegment (nth (Z.to_nat p1) x 0) (nth (Z.to_nat p2) x 0)
                    (nth (Z.to_nat p1) y 0) (nth (Z.to_nat p2) y 0)).
Proof.
  intros Hlen H1 H2. unfold connectpoints.
  rewrite !(py_getitem_nth x) by assumption.
  rewrite !(py_getitem_nth y) by (rewrite <- Hlen; assumption).
  reflexivity.
Qed.

(** The segment and the label that the loop adds for the index [p]. *)
Local Abbreviation edge_of x y p :=
  (mkSegment (nth (Z.to_nat p) x 0) (nth (Z.to_nat (p + 1)) x 0)
             (nth (Z.to_nat p) y 0) (nth (Z.to_nat (p + 1)) y 0)).
Local Abbreviation label_of x y p :=
  (nth (Z.to_nat (p + 1)) x 0, nth (Z.to_nat (p + 1)) y 0 + 0.05, (p + 1)%Z).

Lemma edge_loop_ok (x y : list R) (ps : list Z) (c : Canvas) :
  length x = length y ->
  (forall p : Z, In p ps -> (0 <= p /\ p + 1 < Z.of_nat (length x))%Z) ->
  edge_loop x y ps c =
    Some (mkCanvas (segments c ++ map (fun p => edge_of x y p) ps)
                   (texts c ++ map (fun p => label_of x y p) ps)).
Proof.
  intros Hlen. revert c.
  induction ps as [| p ps IH]; intros c Hps; cbn [edge_loop map].
  - rewrite !app_nil_r. now destruct c.
  - assert (Hp : (0 <= p /\ p + 1 < Z.of_nat (length x))%Z)
      by (apply Hps; now left).
    unfold edge_step.
    rewrite connectpoints_nth by (try assumption; lia).
    rewrite (py_getitem_nth x), (py_getitem_nth y) by (rewrite <- ?Hlen; lia).
    rewrite IH by (intros q Hq; apply Hps; now right).
    cbn [segments texts]. now rewrite <- !app_assoc.
Qed.

Lemma In_range (n p : Z) : In p (range n) <-> (0 <= p < n)%Z.
Proof.
  unfold range. rewrite in_map_iff. split.
  - intros [i [<- Hi]]. apply in_seq in Hi. lia.
  - intro Hp. exists (Z.to_nat p). split; [lia |]. apply in_seq. lia.
Qed.

Lemma draw_edges_ok (x y : list R) :
  length x = length y -> (1 <= length x)%nat ->
  exists c : Canvas,
    draw_edges x y (Z.of_nat (length x)) = Some c /\
    segments c =
      mkSegment (nth 0 x 0) (nth (length x - 1) x 0)
                (nth 0 y 0) (nth (length x - 1) y 0)
      :: map (fun p => edge_of x y p) (range (Z.of_nat (length x) - 1)) /\
    map snd (texts c) = range (Z.of_nat (length x)).
Proof.
  intros Hlen Hpos. unfold draw_edges.
  rewrite connectpoints_nth by (try assumption; lia).
  rewrite (py_getitem_nth x), (py_getitem_nth y) by (rewrite <- ?Hlen; lia).
  rewrite edge_loop_ok by (try assumption; intros p Hp; apply In_range in Hp; lia).
  eexists. split; [reflexivity |]. cbn [segments texts]. split.
  - cbn [app]. do 4 f_equal; lia.
  - cbn [app map snd]. rewrite map_map. cbn [snd].
    unfold range.
    replace (Z.to_nat (Z.of_nat (length x))) with (Datatypes.S (Z.to_nat (Z.of_nat (length x) - 1))) by lia.
    cbn [seq map]. f_equal.
    rewrite <- seq_shift, !map_map. apply map_ext. intro i. lia.
Qed.

(** On two non-empty lists of the same length [n], the drawing stage
    raises nothing: it draws the closing segment between the first and the
    last point, then one segment from each point to the next, and labels
    the points [0, ..., n-1] in this order. *)
Theorem draw_edges_polygon (x y : list R) :
  length x = length y -> (1 <= length x)%nat ->
  exists c : Canvas,
    draw_edges x y (Z.of_nat (length x)) = Some c /\
    segments c =
      mkSegment (nth 0 x 0) (nth (length x - 1) x 0)
                (nth 0 y 0) (nth (length x - 1) y 0)
      :: map (fun p => edge_of x y p) (range (Z.of_nat (length x) - 1)) /\
    map snd (texts c) = range (Z.of_nat (length x)).
Proof. exact (draw_edges_ok x y). Qed.

Lemma draw_edges_polygon_witness :
  exists c : Canvas,
    draw_edges [1; 2; 3] [4; 5; 6] (Z.of_nat 3) = Some c /\
    segments c =
      mkSegment 1 (nth (3 - 1) [1; 2; 3] 0) 4 (nth (3 - 1) [4; 5; 6] 0)
      :: map (fun p => edge_of [1; 2; 3] [4; 5; 6] p) (range (Z.of_nat 3 - 1)) /\
    map snd (texts c) = range (Z.of_nat 3).
Proof. apply (draw_edges_polygon [1; 2; 3] [4; 5; 6]); simpl; lia. Defined.

(** On the empty lists the first [connectpoints] raises [IndexError],
    whatever [n] is. *)
Lemma draw_edges_nil (n : Z) : draw_edges [] [] n = None.
Proof. unfold draw_edges, connectpoints. now rewrite py_getitem_nil. Qed.

(** For [n <= 0] the root loop leaves both lists empty and the drawing
    stage stops [plot_funct] with [IndexError]. *)
Theorem plot_funct_drawn_nonpositive (n : Z) :
  (n <= 0)%Z -> plot_funct_drawn n = inl IndexError.
Proof.
  intro Hn. unfold plot_funct_drawn.
  rewrite plot_funct_total, range_nonpos by exact Hn.
  cbn [map ret]. now rewrite draw_edges_nil.
Qed.

Lemma plot_funct_drawn_nonpositive_witness : plot_funct_drawn 0 = inl IndexError.
Proof. apply (plot_funct_drawn_nonpositive 0). lia. Defined.

Lemma nth_map_range (f : Z -> R) (n p : Z) :
  (0 <= p < n)%Z -> nth (Z.to_nat p) (map f (range n)) 0 = f p.
Proof.
  intro Hp.
  rewrite (nth_map_default f (range n) 0%Z) by (rewrite range_length; lia).
  now rewrite range_nth.
Qed.

Lemma chord_consecutive (n p : Z) :
  (1 <= n)%Z ->
  (cos (angle n p) - cos (angle n (p + 1))) * (cos (angle n p) - cos (angle n (p + 1))) +
  (sin (angle n p) - sin (angle n (p + 1))) * (sin (angle n p) - sin (angle n (p + 1))) =
  4 * (sin (PI / IZR n) * sin (PI / IZR n)).
Proof.
  intro Hn. assert (Hr : 1 <= IZR n) by (now apply IZR_le).
  rewrite chord_sqr.
  replace ((angle n p - angle n (p + 1)) / 2) with (- (PI / IZR n))
    by (rewrite plus_IZR; field; lra).
  rewrite sin_neg. ring.
Qed.

Lemma chord_closing (n : Z) :
  (1 <= n)%Z ->
  (cos (angle n 0) - cos (angle n (n - 1))) * (cos (angle n 0) - cos (angle n (n - 1))) +
  (sin (angle n 0) - sin (angle n (n - 1))) * (sin (angle n 0) - sin (angle n (n - 1))) =
  4 * (sin (PI / IZR n) * sin (PI / IZR n)).
Proof.
  intro Hn. assert (Hr : 1 <= IZR n) by (now apply IZR_le).
  rewrite chord_sqr.
  replace ((angle n 0 - angle n (n - 1)) / 2) with (PI / IZR n - PI)
    by (rewrite minus_IZR; field; lra).
  rewrite sin_minus, cos_PI, sin_PI. ring.
Qed.

(** For [n >= 1], [plot_funct] draws without raising a closed regular
    polygon: [n] segments, each of squared length [4 sin^2 (pi / n)], and
    the labels [0, ..., n-1] in order. *)
Theorem plot_funct_drawn_regular (n : Z) :
  (1 <= n)%Z ->
  exists c : Canvas,
    plot_funct_drawn n = inr c /\
    Z.of_nat (length (segments c)) = n /\
    map snd (texts c) = range n /\
    forall s : Segment, In s (segments c) ->
      (seg_x1 s - seg_x2 s) * (seg_x1 s - seg_x2 s) +
      (seg_y1 s - seg_y2 s) * (seg_y1 s - seg_y2 s) =
      4 * (sin (PI / IZR n) * sin (PI / IZR n)).
Proof.
  intro Hn. unfold plot_funct_drawn. rewrite plot_funct_total. cbn [ret].
  set (real := map (fun k => cos (angle n k)) (range n)).
  set (imag := map (fun k => sin (angle n k)) (range n)).
  assert (Hreal : length real = Z.to_nat n)
    by (unfold real; now rewrite length_map, range_length).
  assert (Himag : length imag = Z.to_nat n)
    by (unfold imag; now rewrite length_map, range_length).
  destruct (draw_edges_ok real imag) as [c [Hc [Hseg Htxt]]];
    [congruence | lia |].
  replace (Z.of_nat (length real)) with n in Hc, Hseg, Htxt by lia.
  rewrite Hc. exists c. split; [reflexivity |].
  rewrite Hseg. cbn [length]. rewrite length_map, range_length.
  split; [lia |]. split; [exact Htxt |].
  intros s [<- | Hs]; cbn [seg_x1 seg_x2 seg_y1 seg_y2].
  - replace (length real - 1)%nat with (Z.to_nat (n - 1)) by lia.
    change 0%nat with (Z.to_nat 0).
    unfold real, imag. rewrite !nth_map_range by lia.
    now apply chord_closing.
  - apply in_map_iff in Hs. destruct Hs as [p [<- Hp]].
    apply In_range in Hp. cbn [seg_x1 seg_x2 seg_y1 seg_y2].
    unfold real, imag. rewrite !nth_map_range by lia.
    now apply chord_consecutive.
Qed.

Lemma plot_funct_drawn_regular_witness :
  exists c : Canvas,
    plot_funct_drawn 5 = inr c /\
    Z.of_nat (length (segments c)) = 5%Z /\
    map snd (texts c) = range 5 /\
    forall s : Segment, In s (segments c) ->
      (seg_x1 s - seg_x2 s) * (seg_x1 s - seg_x2 s) +
      (seg_y1 s - seg_y2 s) * (seg_y1 s - seg_y2 s) =
      4 * (sin (PI / 5) * sin (PI / 5)).
Proof. apply (plot_funct_drawn_regular 5). lia. Defined.

(** ** The trajectories of [plot_func] *)

Lemma saturation_bounds (K a : R) : 0 < K -> 0 <= a -> 0 <= a / (K + a) < 1.
Proof.
  intros HK Ha. split.
  - apply Rmult_le_pos; [exact Ha |]. left. apply Rinv_0_lt_compat. lra.
  - apply (Rmult_lt_reg_r (K + a)); [lra |].
    unfold Rdiv. rewrite Rmult_assoc, Rinv_l by lra. lra.
Qed.

Lemma saturation_monotone (K a b : R) :
  0 < K -> 0 <= a -> a <= b -> a / (K + a) <= b / (K + b).
Proof.
  intros HK Ha Hab.
  apply (Rmult_le_reg_r ((K + a) * (K + b))); [nra |].
  replace (a / (K + a) * ((K + a) * (K + b))) with (a * (K + b)) by (field; lra).
  replace (b / (K + b) * ((K + a) * (K + b))) with (b * (K + a)) by (field; lra).
  nra.
Qed.

Lemma exp_nonpos_le_1 (x : R) : x <= 0 -> 0 < exp x <= 1.
Proof.
  intro Hx. split; [apply exp_pos |].
  destruct Hx as [Hx | ->].
  - left. rewrite <- exp_0. now apply exp_increasing.
  - rewrite exp_0. apply Rle_refl.
Qed.

Lemma Globals_k_1_pos : 0 < Globals.k_1.
Proof. unfold Globals.k_1. lra. Qed.

Section Trajectories.

Variable lambertw : R -> Z -> C.
Hypothesis lambertw_principal : principal_branch lambertw.

Variables K_M K_cat S_0 E_0 : R.
Hypothesis K_M_pos : 0 < K_M.
Hypothesis K_cat_nonneg : 0 <= K_cat.
Hypothesis S_0_nonneg : 0 <= S_0.
Hypothesis E_0_nonneg : 0 <= E_0.

Local Abbreviation W := (plot_func.W lambertw).
Local Abbreviation v_max := (plot_func.v_max K_cat E_0).
Local Abbreviation S := (plot_func.S lambertw K_M K_cat S_0 E_0).
Local Abbreviation ES := (plot_func.ES K_M E_0).
Local Abbreviation E := (plot_func.E lambertw K_M K_cat S_0 E_0).
Local Abbreviation P := (plot_func.P S_0).
Local Abbreviation v := (plot_func.v K_M K_cat E_0).
Local Abbreviation z_at t := (S_0 / K_M * exp (1 / K_M * (- v_max * t + S_0))).
Local Abbreviation S_at t := (K_M * W (z_at t)).

Lemma S_at_le_S_0 (t : R) : 0 <= t -> S_at t <= S_0.
Proof.
  intro Ht.
  rewrite <- (S_at_0 lambertw lambertw_principal K_M K_cat S_0 E_0 K_M_pos S_0_nonneg) at 3.
  now apply S_at_antitone.
Qed.

End Trajectories.

(** ** The grid [T] *)

Lemma ceil_bounds (x : R) : x <= IZR (ceil x) < x + 1.
Proof.
  unfold ceil. rewrite minus_IZR.
  destruct (archimed (- x)) as [H1 H2]. lra.
Qed.

Lemma T_length (t_f : R) :
  length (plot_func.T t_f) = Z.to_nat (ceil ((t_f - Globals.t_0) / Globals.dt)).
Proof. unfold plot_func.T, np_arange. now rewrite length_map, length_seq. Qed.

Lemma T_samples (t_f : R) :
  (plot_func.T t_f = [] <-> t_f <= 0) /\
  (forall i : nat, (i < length (plot_func.T t_f))%nat ->
     nth i (plot_func.T t_f) 0 = INR i * 0.01 /\
     nth i (plot_func.T t_f) 0 < t_f) /\
  t_f <= INR (length (plot_func.T t_f)) * 0.01.
Proof.
  pose proof (ceil_bounds ((t_f - Globals.t_0) / Globals.dt)) as [Hlo Hhi].
  pose proof (T_length t_f) as Hlen.
  unfold Globals.t_0, Globals.dt in *.
  set (N := ceil ((t_f - 0) / 0.01)) in *.
  replace ((t_f - 0) / 0.01) with (t_f * 100) in Hlo, Hhi by lra.
  assert (HN : INR (length (plot_func.T t_f)) = IZR (Z.max 0 N)).
  { rewrite Hlen, INR_IZR_INZ. f_equal. lia. }
  split; [| split].
  - rewrite <- length_zero_iff_nil, Hlen. split.
    + intro H0. assert (HN0 : (N <= 0)%Z) by lia. apply IZR_le in HN0. lra.
    + intro Ht. assert (HN0 : (N < 1)%Z) by (apply lt_IZR; lra). lia.
  - intros i Hi. rewrite T_nth by exact Hi.
    unfold Globals.t_0, Globals.dt. split; [lra |].
    assert (Hi' : (Z.of_nat i <= N - 1)%Z) by lia.
    apply IZR_le in Hi'. rewrite minus_IZR, <- INR_IZR_INZ in Hi'. lra.
  - rewrite HN.
    assert (Hmax : IZR N <= IZR (Z.max 0 N)) by (apply IZR_le; lia). lra.
Qed.

(** The grid is empty exactly when [t_f <= 0].  For the values of the
    slider of [t_f], the integers from 1 to 50, it has [100 * t_f] samples;
    the sample of index [i] is [i * 0.01] within [1e-9] and lies below
    [t_f], which is excluded. *)
Theorem T_grid (t_f : R) (n : Z) :
  (plot_func.T t_f = [] <-> t_f <= 0) /\
  ((1 <= n <= 50)%Z ->
   length (plot_func.T (IZR n)) = Z.to_nat (100 * n) /\
   forall i : nat, (i < length (plot_func.T (IZR n)))%nat ->
     Rabs (nth i (plot_func.T (IZR n)) 0 - INR i * 0.01) <= 1e-9 /\
     nth i (plot_func.T (IZR n)) 0 < IZR n).
Proof.
  split; [exact (proj1 (T_samples t_f)) |].
  intro Hn. split.
  - rewrite T_length. unfold Globals.t_0, Globals.dt.
    replace ((IZR n - 0) / 0.01) with (IZR (100 * n)) by (rewrite mult_IZR; lra).
    f_equal. unfold ceil.
    assert (Hup : (1 - 100 * n)%Z = up (- IZR (100 * n))).
    { apply tech_up; rewrite minus_IZR; lra. }
    rewrite <- Hup. lia.
  - intros i Hi. destruct (T_samples (IZR n)) as [_ [Hs _]].
    destruct (Hs i Hi) as [Hv Hlt]. split; [| exact Hlt].
    rewrite Hv, Rminus_diag, Rabs_R0. lra.
Qed.

(** ** Failures of the lambdas and of the plotted series *)

Lemma comprehension_raise {A X : Type} (f : X -> py A) (e : exn) (x : X) (xs : list X) :
  f x = raise e -> comprehension f (x :: xs) = raise e.
Proof. intro H. simpl. now rewrite H. Qed.

Section Failures.

Variable lambertw : R -> Z -> C.
Variables K_M K_cat S_0 E_0 : R.

Local Abbreviation W := (plot_func.W lambertw).
Local Abbreviation v_max := (plot_func.v_max K_cat E_0).
Local Abbreviation S := (plot_func.S lambertw K_M K_cat S_0 E_0).
Local Abbreviation ES := (plot_func.ES K_M E_0).
Local Abbreviation E := (plot_func.E lambertw K_M K_cat S_0 E_0).
Local Abbreviation P := (plot_func.P S_0).
Local Abbreviation v := (plot_func.v K_M K_cat E_0).
Local Abbreviation S_at t :=
  (K_M * W (S_0 / K_M * exp (1 / K_M * (- v_max * t + S_0)))).
Local Abbreviation ES_at t :=
  (E_0 * S_at t / (K_M + S_at t)
   * (1 - exp (- (K_M + S_at t) * Globals.k_1 * t))).

Lemma S_eval (t : R) : K_M <> 0 -> S t = ret (S_at t).
Proof.
  intro HK. unfold plot_func.S. rewrite !py_div_ok by exact HK. reflexivity.
Qed.

Lemma S_raise (t : R) : K_M = 0 -> S t = raise ZeroDivisionError.
Proof.
  intro HK. unfold plot_func.S. rewrite HK, py_div_zero. reflexivity.
Qed.

Lemma ES_eval (t : R) : K_M <> 0 -> ES t S = ret (ES_at t).
Proof. intro HK. unfold plot_func.ES. now rewrite S_eval. Qed.

Lemma E_eval (t : R) : K_M <> 0 -> E t ES = ret (E_0 - ES_at t).
Proof. intro HK. unfold plot_func.E. now rewrite ES_eval. Qed.

Lemma P_eval (t : R) : K_M <> 0 -> P t S ES = ret (S_0 - S_at t - ES_at t).
Proof. intro HK. unfold plot_func.P. now rewrite S_eval, ES_eval. Qed.

Lemma v_eval (t : R) :
  K_M <> 0 -> v t S = ret (v_max * S_at t / (K_M + S_at t)).
Proof. intro HK. unfold plot_func.v. now rewrite S_eval. Qed.

(** Each of the five lambdas raises exactly when [K_M] is zero, at every
    time and whatever the other parameters and [lambertw] are. *)
Theorem lambdas_fail_iff (t : R) :
  (fails (S t) <-> K_M = 0) /\
  (fails (ES t S) <-> K_M = 0) /\
  (fails (E t ES) <-> K_M = 0) /\
  (fails (P t S ES) <-> K_M = 0) /\
  (fails (v t S) <-> K_M = 0).
Proof.
  assert (Hraise : K_M = 0 ->
            fails (S t) /\ fails (ES t S) /\ fails (E t ES) /\
            fails (P t S ES) /\ fails (v t S)).
  { intro HK. unfold plot_func.E, plot_func.P, plot_func.v, plot_func.ES.
    rewrite S_raise by exact HK.
    repeat split; exists ZeroDivisionError; reflexivity. }
  assert (Hok : forall (m : py R) (r : R), m = ret r -> fails m -> K_M = 0)
    by (intros m r -> [e He]; discriminate He).
  destruct (Req_dec_T K_M 0) as [HK | HK].
  - destruct (Hraise HK) as [H1 [H2 [H3 [H4 H5]]]].
    repeat split; intros; assumption.
  - repeat split; try (intro; contradiction).
    + apply (Hok _ _ (S_eval t HK)).
    + apply (Hok _ _ (ES_eval t HK)).
    + apply (Hok _ _ (E_eval t HK)).
    + apply (Hok _ _ (P_eval t HK)).
    + apply (Hok _ _ (v_eval t HK)).
Qed.

End Failures.

(** ** The five plotted series *)

Section Plotted.

Variable lambertw : R -> Z -> C.
Variables K_M K_cat S_0 E_0 t_f : R.

Local Abbreviation W := (plot_func.W lambertw).
Local Abbreviation v_max := (plot_func.v_max K_cat E_0).
Local Abbreviation T := (plot_func.T t_f).
Local Abbreviation plotted := (plot_func.plotted lambertw K_M K_cat S_0 E_0 t_f).
Local Abbreviation S_at t :=
  (K_M * W (S_0 / K_M * exp (1 / K_M * (- v_max * t + S_0)))).
Local Abbreviation ES_at t :=
  (E_0 * S_at t / (K_M + S_at t)
   * (1 - exp (- (K_M + S_at t) * Globals.k_1 * t))).

Lemma plotted_ok :
  K_M <> 0 -> E_0 <> 0 ->
  plotted =
    ret (map (fun t => S_0 - S_at t - ES_at t) T,
         map (fun t => S_at t) T,
         map (fun t => 10 / E_0 * (E_0 - ES_at t)) T,
         map (fun t => 10 / E_0 * ES_at t) T,
         map (fun t => 100 * (v_max * S_at t / (K_M + S_at t)) / v_max) T).
Proof.
  intros HK HE. unfold plot_func.plotted.
  unfold plot_func.P_series.
  rewrite (comprehension_map _ (fun t => S_0 - S_at t - ES_at t))
    by (intros t _; now apply P_eval).
  unfold plot_func.S_series.
  rewrite (comprehension_map _ (fun t => S_at t))
    by (intros t _; now apply S_eval).
  unfold plot_func.E_series.
  rewrite (comprehension_map _ (fun t => 10 / E_0 * (E_0 - ES_at t)))
    by (intros t _; rewrite py_div_ok, E_eval by assumption; reflexivity).
  unfold plot_func.ES_series.
  rewrite (comprehension_map _ (fun t => 10 / E_0 * ES_at t))
    by (intros t _; rewrite py_div_ok, ES_eval by assumption; reflexivity).
  unfold plot_func.v_series.
  rewrite (comprehension_map _
             (fun t => 100 * (v_max * S_at t / (K_M + S_at t)) / v_max))
    by (intros t _; rewrite v_eval by assumption; reflexivity).
  reflexivity.
Qed.

(** One call of [plot_func] raises (always [ZeroDivisionError]) exactly
    when the grid is not empty, that is [t_f > 0], and [K_M] or [E_0] is
    zero; on an empty grid no lambda is called and nothing is raised. *)
Theorem plotted_fails_iff :
  fails plotted <-> 0 < t_f /\ (K_M = 0 \/ E_0 = 0).
Proof.
  destruct (T_samples t_f) as [Hempty _].
  destruct T as [| t ts] eqn:HT.
  - assert (Ht : t_f <= 0) by (now apply Hempty).
    split.
    + intros [e He]. unfold plot_func.plotted, plot_func.P_series,
        plot_func.S_series, plot_func.E_series, plot_func.ES_series,
        plot_func.v_series in He.
      rewrite HT in He. discriminate He.
    + intros [Hpos _]. lra.
  - assert (Ht : 0 < t_f).
    { destruct (Rlt_le_dec 0 t_f) as [H | H]; [exact H |].
      apply Hempty in H. discriminate H. }
    split.
    + intros [e He]. split; [exact Ht |].
      destruct (Req_dec_T K_M 0) as [HK | HK]; [now left |].
      destruct (Req_dec_T E_0 0) as [HE | HE]; [now right |].
      rewrite plotted_ok in He by assumption. discriminate He.
    + intros [_ Hz]. exists ZeroDivisionError.
      unfold plot_func.plotted.
      destruct (Req_dec_T K_M 0) as [HK | HK].
      * unfold plot_func.P_series. rewrite HT.
        rewrite (comprehension_raise _ ZeroDivisionError); [reflexivity |].
        unfold plot_func.P. now rewrite S_raise.
      * destruct Hz as [Hz | HE]; [contradiction |].
        unfold plot_func.P_series.
        rewrite (comprehension_map _ (fun t => S_0 - S_at t - ES_at t))
          by (intros u _; now apply P_eval).
        unfold plot_func.S_series.
        rewrite (comprehension_map _ (fun t => S_at t))
          by (intros u _; now apply S_eval).
        unfold plot_func.E_series. rewrite HT.
        rewrite (comprehension_raise _ ZeroDivisionError); [reflexivity |].
        now rewrite HE, py_div_zero.
Qed.

End Plotted.

(** ** The ratio expression *)

Lemma floor_bounds (x : R) : IZR (floor x) <= x < IZR (floor x) + 1.
Proof.
  unfold floor. rewrite minus_IZR.
  destruct (archimed x) as [H1 H2]. lra.
Qed.

Lemma round_half_even_close (x : R) :
  - (1 / 2) <= IZR (round_half_even x) - x <= 1 / 2.
Proof.
  unfold round_half_even.
  pose proof (floor_bounds x) as [Hlo Hhi].
  destruct (Rlt_dec (x - IZR (floor x)) (1 / 2)) as [H1 | H1]; [lra |].
  destruct (Rlt_dec (1 / 2) (x - IZR (floor x))) as [H2 | H2].
  - rewrite plus_IZR. lra.
  - destruct (Z.even (floor x)); [| rewrite plus_IZR]; lra.
Qed.

(** On a computed [K_M], the ratio expression raises [ZeroDivisionError]
    when [K_M = -E_0]; for [0 < K_M <= 1000] and [0 <= E_0 <= 1000] it
    returns a number within [0.0005] (and [1e-9] for the rounding of the
    operations) of [E_0 / (K_M + E_0)]. *)
Theorem ratio_expression_rounds (E_0 k : R) :
  ratio_expression E_0 (ret (- E_0)) = raise ZeroDivisionError /\
  (0 < k <= 1000 -> 0 <= E_0 <= 1000 ->
   exists r : R,
     ratio_expression E_0 (ret k) = ret r /\
     Rabs (r - E_0 / (k + E_0)) <= 0.0005 + 1e-9).
Proof.
  split.
  - unfold ratio_expression. cbn [bind ret].
    replace (- E_0 + E_0) with 0 by ring. now rewrite py_div_zero.
  - intros Hk HE. unfold ratio_expression. cbn [bind ret].
    rewrite py_div_ok by lra. cbn [bind ret].
    eexists. split; [reflexivity |]. unfold py_round.
    replace (10 ^ 3) with 1000 by (simpl; ring).
    pose proof (round_half_even_close (E_0 / (k + E_0) * 1000)) as H.
    apply Rabs_le. lra.
Qed.

Lemma ratio_expression_rounds_witness :
  exists r : R,
    ratio_expression 1 (ret 3) = ret r /\
    Rabs (r - 1 / (3 + 1)) <= 0.0005 + 1e-9.
Proof. apply (ratio_expression_rounds 1 3); lra. Defined.

(** ** The two cells on fluctuating substrate *)








Section Fluctuation.

Variables K_M S_mean dE : R.
Hypothesis K_M_pos : 0 < K_M.
Hypothesis S_mean_nonneg : 0 <= S_mean.
Hypothesis dE_range : 0 <= dE <= 1.

(** The substrate level drawn from the sample [u], and the flux at the
    level [s]. *)
Local Abbreviation level u :=
  (S_mean + (dE * S_mean - - (dE * S_mean)) * u + - (dE * S_mean)).
Local Abbreviation flux s := (30 * s / (K_M + s)).
Local Abbreviation lo := (S_mean * (1 - dE)).
Local Abbreviation hi := (S_mean * (1 + dE)).





End Fluctuation.

(** The flux at the substrate level [s] in the two cells, and the substrate
    levels at the two ends of the fluctuation. *)
Local Abbreviation flux_at K_M s := (30 * s / (K_M + s)).
Local Abbreviation level_of S_mean dE u :=
  (S_mean + (dE * S_mean - - (dE * S_mean)) * u + - (dE * S_mean)).









(** ** More on [W] and on the substrate *)

(** For a [lambertw] that meets [principal_branch], the wrapper [W] is
    non-negative and non-decreasing on the non-negative reals, and inverts
    [x * exp x] there. *)
Theorem W_inverse_monotone (lambertw : R -> Z -> C) :
  principal_branch lambertw ->
  (forall z : R, 0 <= z -> 0 <= plot_func.W lambertw z) /\
  (forall z1 z2 : R, 0 <= z1 -> z1 <= z2 ->
     plot_func.W lambertw z1 <= plot_func.W lambertw z2) /\
  (forall x : R, 0 <= x -> plot_func.W lambertw (x * exp x) = x).
Proof.
  intro Hw. split; [| split].
  - now apply W_nonneg.
  - now apply W_monotone.
  - now apply W_xexp.
Qed.

Lemma W_inverse_monotone_witness :
  (forall z : R, 0 <= z -> 0 <= plot_func.W lambertw_ref z) /\
  (forall z1 z2 : R, 0 <= z1 -> z1 <= z2 ->
     plot_func.W lambertw_ref z1 <= plot_func.W lambertw_ref z2) /\
  (forall x : R, 0 <= x -> plot_func.W lambertw_ref (x * exp x) = x).
Proof. apply (W_inverse_monotone lambertw_ref lambertw_ref_principal). Defined.



Lemma T_grid_witness :
  length (plot_func.T (IZR 5)) = Z.to_nat (100 * 5) /\
  forall i : nat, (i < length (plot_func.T (IZR 5)))%nat ->
    Rabs (nth i (plot_func.T (IZR 5)) 0 - INR i * 0.01) <= 1e-9 /\
    nth i (plot_func.T (IZR 5)) 0 < IZR 5.
Proof. apply (T_grid 0 5). lia. Defined.

Lemma lambdas_fail_iff_witness :
  (fails (plot_func.S lambertw_ref 0 1 1 1 2) <-> 0 = 0) /\
  (fails (plot_func.ES 0 1 2 (plot_func.S lambertw_ref 0 1 1 1)) <-> 0 = 0) /\
  (fails (plot_func.E lambertw_ref 0 1 1 1 2 (plot_func.ES 0 1)) <-> 0 = 0) /\
  (fails (plot_func.P 1 2 (plot_func.S lambertw_ref 0 1 1 1) (plot_func.ES 0 1))
     <-> 0 = 0) /\
  (fails (plot_func.v 0 1 1 2 (plot_func.S lambertw_ref 0 1 1 1)) <-> 0 = 0).
Proof. apply (lambdas_fail_iff lambertw_ref 0 1 1 1 2). Defined.

Lemma plotted_fails_iff_witness :
  fails (plot_func.plotted lambertw_ref 1 1 1 0 5) <-> 0 < 5 /\ (1 = 0 \/ 0 = 0).
Proof. apply (plotted_fails_iff lambertw_ref 1 1 1 0 5). Defined.

(** * The values of [plot_func] in binary64 *)

(** ** The special values *)

Lemma max_float_big : 500 * 3 ^ 500 <= max_float.
Proof.
  unfold max_float.
  replace (500 * 3 ^ 500) with (IZR (500 * 3 ^ 500)).
  - apply IZR_le. vm_compute. discriminate.
  - rewrite mult_IZR. f_equal. now rewrite (pow_IZR 3 500).
Qed.

Lemma max_float_million : 1000000 <= max_float.
Proof.
  unfold max_float. apply (IZR_le 1000000). vm_compute. discriminate.
Qed.

Lemma overflow_fin (r : R) :
  - max_float <= r <= max_float -> overflow r = Fin r.
Proof.
  intros [Hlo Hhi]. unfold overflow.
  destruct (Rlt_dec max_float r) as [H | _]; [lra |].
  destruct (Rlt_dec r (- max_float)) as [H | _]; [lra | reflexivity].
Qed.

Lemma overflow_pinf (r : R) : max_float < r -> overflow r = PInf.
Proof.
  intro H. unfold overflow.
  destruct (Rlt_dec max_float r) as [_ | H']; [reflexivity | contradiction].
Qed.

Lemma overflow_inv (r s : R) : overflow r = Fin s -> s = r.
Proof.
  unfold overflow.
  destruct (Rlt_dec max_float r); [discriminate |].
  destruct (Rlt_dec r (- max_float)); [discriminate |].
  now intros [= <-].
Qed.


Lemma inf_sign_not_fin (r s : R) : inf_sign r <> Fin s.
Proof.
  unfold inf_sign. destruct (Rlt_dec 0 r); [discriminate |].
  destruct (Rlt_dec r 0); discriminate.
Qed.

Lemma inf_sign_pos (r : R) : 0 < r -> inf_sign r = PInf.
Proof.
  intro H. unfold inf_sign.
  destruct (Rlt_dec 0 r) as [_ | H']; [reflexivity | contradiction].
Qed.

Lemma inf_sign_zero : inf_sign 0 = NaN.
Proof.
  unfold inf_sign.
  destruct (Rlt_dec 0 0) as [H | _]; [lra |].
  destruct (Rlt_dec 0 0) as [H | _]; [lra | reflexivity].
Qed.


(** A product, a sum or a difference is finite only when both operands
    are, and then it is the exact result. *)
Lemma fmul_fin_inv (x y : float64) (s : R) :
  fmul x y = Fin s -> exists a b : R, x = Fin a /\ y = Fin b /\ s = a * b.
Proof.
  destruct x as [a | | |], y as [b | | |]; simpl; intro H;
    try discriminate H; try (now apply inf_sign_not_fin in H).
  exists a, b. repeat split. now apply overflow_inv.
Qed.

Lemma fadd_fin_inv (x y : float64) (s : R) :
  fadd x y = Fin s -> exists a b : R, x = Fin a /\ y = Fin b /\ s = a + b.
Proof.
  destruct x as [a | | |], y as [b | | |]; simpl; intro H; try discriminate H.
  exists a, b. repeat split. now apply overflow_inv.
Qed.

Lemma fsub_fin_inv (x y : float64) (s : R) :
  fsub x y = Fin s -> exists a b : R, x = Fin a /\ y = Fin b /\ s = a - b.
Proof.
  unfold fsub. intro H. apply fadd_fin_inv in H.
  destruct H as [a [b' [Hx [Hy Hs]]]].
  destruct y as [b | | |]; try discriminate Hy.
  injection Hy as <-. exists a, b. repeat split; [exact Hx | lra].
Qed.

Lemma fexp_fin_inv (x : float64) (s : R) :
  fexp x = Fin s ->
  (exists a : R, x = Fin a /\ s = exp a) \/ (x = NInf /\ s = 0).
Proof.
  destruct x as [a | | |]; simpl; intro H; try discriminate H.
  - left. exists a. split; [reflexivity | now apply overflow_inv].
  - right. split; [reflexivity | now injection H].
Qed.




(** A product by zero is zero or NaN. *)
Lemma fmul_zero_r (x : float64) : fmul x (Fin 0) = Fin 0 \/ fmul x (Fin 0) = NaN.
Proof.
  pose proof max_float_million as Hm.
  destruct x as [a | | |]; simpl.
  - left. rewrite Rmult_0_r. apply overflow_fin. lra.
  - right. apply inf_sign_zero.
  - right. rewrite Ropp_0. apply inf_sign_zero.
  - now right.
Qed.

Lemma py_fdiv_ok (a b : R) : b <> 0 -> py_fdiv (Fin a) (Fin b) = ret (overflow (a / b)).
Proof.
  intro Hb. unfold py_fdiv, fdiv.
  destruct (Req_dec_T b 0); [contradiction | reflexivity].
Qed.

(** [exp] at an integer, and the overflow of [np.exp(1500)]. *)
Lemma exp_INR (n : nat) : exp (INR n) = exp 1 ^ n.
Proof.
  induction n as [| n IH].
  - simpl. apply exp_0.
  - rewrite S_INR, exp_plus, IH. simpl. ring.
Qed.

Lemma exp_500_fits : exp 500 <= 3 ^ 500.
Proof.
  replace (exp 500) with (exp (INR 500))
    by (rewrite INR_IZR_INZ; reflexivity).
  rewrite exp_INR.
  apply pow_incr. split; [left; apply exp_pos | exact exp_le_3].
Qed.

Lemma exp_1500_overflows : max_float < exp 1500.
Proof.
  apply Rlt_le_trans with (2 ^ 1500).
  - unfold max_float. rewrite (pow_IZR 2 1500).
    apply IZR_lt. vm_compute. reflexivity.
  - replace (exp 1500) with (exp (INR 1500))
      by (rewrite INR_IZR_INZ; reflexivity).
    rewrite exp_INR.
    apply pow_incr. split; [lra |].
    pose proof (exp_ineq1 1 ltac:(lra)). lra.
Qed.

(** ** [S] in binary64 *)



Section Binary64.

Variable lambertw : float64 -> Z -> C64.
Hypothesis lambertw_principal : principal_branch64 lambertw.

Variables K_M K_cat S_0 E_0 : R.

Local Abbreviation W64 := (plot_func_f64.W lambertw).
Local Abbreviation v_max64 := (plot_func_f64.v_max K_cat E_0).
Local Abbreviation S64 := (plot_func_f64.S lambertw K_M K_cat S_0 E_0).
Local Abbreviation ES64 := (plot_func_f64.ES K_M E_0).
Local Abbreviation E64 := (plot_func_f64.E lambertw K_M K_cat S_0 E_0).
Local Abbreviation P64 := (plot_func_f64.P S_0).
Local Abbreviation v64 := (plot_func_f64.v K_M K_cat E_0).

Lemma real_lambertw_principal : principal_branch (real_lambertw lambertw).
Proof.
  intros z Hz. destruct lambertw_principal as [Hfin _].
  destruct (Hfin z Hz) as [w [Hw Hz']].
  unfold real_lambertw. rewrite Hw. exact Hz'.
Qed.

Lemma W64_fin (z : R) :
  0 <= z -> W64 (Fin z) = Fin (plot_func.W (real_lambertw lambertw) z).
Proof.
  intro Hz. destruct lambertw_principal as [Hfin _].
  destruct (Hfin z Hz) as [w [Hw _]].
  unfold plot_func.W, real_lambertw, plot_func_f64.W. now rewrite Hw.
Qed.




End Binary64.

(** ** No overflow within the ranges of the sliders *)

Section Sliders.

Variable lambertw : float64 -> Z -> C64.
Hypothesis lambertw_principal : principal_branch64 lambertw.

Variables K_M K_cat S_0 E_0 t : R.
Hypothesis in_ranges : slider_ranges K_M K_cat S_0 E_0 t.

Local Abbreviation WR := (plot_func.W (real_lambertw lambertw)).
Local Abbreviation S64 := (plot_func_f64.S lambertw K_M K_cat S_0 E_0).
Local Abbreviation ES64 := (plot_func_f64.ES K_M E_0).
Local Abbreviation E64 := (plot_func_f64.E lambertw K_M K_cat S_0 E_0).
Local Abbreviation P64 := (plot_func_f64.P S_0).
Local Abbreviation v64 := (plot_func_f64.v K_M K_cat E_0).

(** The exact values of [S] and [ES]. *)
Local Abbreviation S_at :=
  (K_M * WR (S_0 / K_M * exp (1 / K_M * (- plot_func.v_max K_cat E_0 * t + S_0)))).
Local Abbreviation ES_at :=
  (E_0 * S_at / (K_M + S_at) * (1 - exp (- (K_M + S_at) * Globals.k_1 * t))).

Lemma S_at_range : 0 <= S_at <= S_0.
Proof.
  destruct in_ranges as [HK [Hc [HS [HE Ht]]]].
  split.
  - apply (S_at_nonneg _ (real_lambertw_principal lambertw lambertw_principal));
      lra.
  - apply (S_at_le_S_0 _ (real_lambertw_principal lambertw lambertw_principal));
      lra.
Qed.

Lemma S64_sliders : S64 t = ret (Fin S_at).
Proof.
  destruct in_ranges as [HK [Hc [HS [HE Ht]]]].
  pose proof max_float_big as Hbig. pose proof max_float_million as Hm.
  pose proof S_at_range as Hs.
  unfold plot_func_f64.S, plot_func_f64.v_max, plot_func.v_max in *.
  rewrite !py_fdiv_ok by lra. cbn [bind ret fmul].
  set (vr := K_cat * E_0) in *.
  assert (Hvr : 0 <= vr <= 50) by (unfold vr; nra).
  rewrite (overflow_fin vr) by lra. cbn [fopp fmul].
  set (m := - vr * t) in *.
  assert (Hmr : -2500 <= m <= 0) by (unfold m; nra).
  rewrite (overflow_fin m) by lra. cbn [fadd].
  rewrite (overflow_fin (m + S_0)) by lra.
  set (b := 1 / K_M) in *.
  assert (Hb : 0 < b <= 10).
  { unfold b. split; [apply Rdiv_lt_0_compat; lra |].
    apply (Rmult_le_reg_r K_M); [lra |].
    unfold Rdiv. rewrite Rmult_assoc, Rinv_l by lra. lra. }
  rewrite (overflow_fin b) by lra. cbn [fmul].
  set (y := b * (m + S_0)) in *.
  assert (Hy : -25000 <= y <= 500) by (unfold y; nra).
  rewrite (overflow_fin y) by lra. cbn [fexp].
  assert (He : 0 < exp y <= 3 ^ 500).
  { split; [apply exp_pos |].
    apply Rle_trans with (exp 500); [| exact exp_500_fits].
    destruct (proj2 Hy) as [Hlt | ->]; [left; now apply exp_increasing | lra]. }
  rewrite (overflow_fin (exp y)) by nra.
  set (a := S_0 / K_M) in *.
  assert (Ha : 0 <= a <= 500).
  { unfold a. split; [unfold Rdiv; apply Rmult_le_pos; [lra |];
                      left; apply Rinv_0_lt_compat; lra |].
    apply (Rmult_le_reg_r K_M); [lra |].
    unfold Rdiv. rewrite Rmult_assoc, Rinv_l by lra. nra. }
  rewrite (overflow_fin a) by lra. cbn [fmul].
  assert (Hz : 0 <= a * exp y <= 500 * 3 ^ 500) by nra.
  rewrite (overflow_fin (a * exp y)) by lra.
  rewrite (W64_fin lambertw lambertw_principal) by lra. cbn [fmul].
  rewrite overflow_fin by lra. reflexivity.
Qed.

Lemma ES_at_range : 0 <= ES_at <= E_0.
Proof.
  destruct in_ranges as [HK [Hc [HS [HE Ht]]]].
  pose proof S_at_range as Hs.
  set (s := S_at) in *.
  destruct (saturation_bounds K_M s ltac:(lra) (proj1 Hs)) as [Hq0 Hq1].
  pose proof Globals_k_1_pos as Hk.
  assert (Hx : - (K_M + s) * Globals.k_1 * t <= 0).
  { assert (Hp : 0 <= (K_M + s) * Globals.k_1 * t)
      by (apply Rmult_le_pos; [apply Rmult_le_pos; lra | lra]).
    lra. }
  destruct (exp_nonpos_le_1 _ Hx) as [Hg0 Hg1].
  replace (E_0 * s / (K_M + s)) with (E_0 * (s / (K_M + s))) by (field; lra).
  set (q := s / (K_M + s)) in *.
  set (g := exp (- (K_M + s) * Globals.k_1 * t)) in *.
  assert (0 <= q * (1 - g) <= 1) by nra.
  nra.
Qed.

Lemma ES64_sliders : ES64 t S64 = ret (Fin ES_at).
Proof.
  destruct in_ranges as [HK [Hc [HS [HE Ht]]]].
  pose proof max_float_million as Hm.
  pose proof S_at_range as Hs. pose proof ES_at_range as Hes.
  unfold plot_func_f64.ES. rewrite S64_sliders. cbn [bind ret fmul fadd].
  set (s := S_at) in *.
  destruct (saturation_bounds K_M s ltac:(lra) (proj1 Hs)) as [Hq0 Hq1].
  assert (Hp : 0 <= E_0 * s <= 50) by nra.
  rewrite (overflow_fin (E_0 * s)) by lra.
  rewrite (overflow_fin (K_M + s)) by lra. cbn [fdiv fopp fmul].
  destruct (Req_dec_T (K_M + s) 0) as [H0 | _]; [lra |].
  assert (Hq : 0 <= E_0 * s / (K_M + s) <= 1).
  { replace (E_0 * s / (K_M + s)) with (E_0 * (s / (K_M + s))) by (field; lra).
    nra. }
  rewrite (overflow_fin (E_0 * s / (K_M + s))) by lra.
  unfold Globals.k_1 in *.
  assert (Hx1 : -551 <= - (K_M + s) * 5.5 <= 0) by nra.
  rewrite (overflow_fin (- (K_M + s) * 5.5)) by lra. cbn [fmul].
  assert (Hx2 : -27550 <= - (K_M + s) * 5.5 * t <= 0) by nra.
  rewrite (overflow_fin (- (K_M + s) * 5.5 * t)) by lra. cbn [fexp].
  destruct (exp_nonpos_le_1 _ (proj2 Hx2)) as [Hg0 Hg1].
  rewrite (overflow_fin (exp (- (K_M + s) * 5.5 * t))) by lra.
  unfold fsub. cbn [fopp fadd].
  rewrite (overflow_fin (1 + - exp (- (K_M + s) * 5.5 * t))) by lra.
  cbn [fmul].
  replace (1 + - exp (- (K_M + s) * 5.5 * t))
    with (1 - exp (- (K_M + s) * 5.5 * t)) by ring.
  rewrite overflow_fin by lra. reflexivity.
Qed.

Lemma E64_sliders : E64 t ES64 = ret (Fin (E_0 - ES_at)).
Proof.
  destruct in_ranges as [HK [Hc [HS [HE Ht]]]].
  pose proof max_float_million as Hm. pose proof ES_at_range as Hes.
  unfold plot_func_f64.E. rewrite ES64_sliders. cbn [bind ret].
  unfold fsub. cbn [fopp fadd].
  rewrite overflow_fin by lra. reflexivity.
Qed.

Lemma P64_sliders : P64 t S64 ES64 = ret (Fin (S_0 - S_at - ES_at)).
Proof.
  destruct in_ranges as [HK [Hc [HS [HE Ht]]]].
  pose proof max_float_million as Hm.
  pose proof S_at_range as Hs. pose proof ES_at_range as Hes.
  unfold plot_func_f64.P. rewrite S64_sliders, ES64_sliders. cbn [bind ret].
  unfold fsub. cbn [fopp fadd].
  rewrite (overflow_fin (S_0 + - S_at)) by lra. cbn [fadd].
  rewrite overflow_fin by lra. reflexivity.
Qed.

End Sliders.

(** ** Overflow below the ranges of the sliders *)

Lemma lambertw_ref64_principal : principal_branch64 lambertw_ref64.
Proof.
  split; [| split]; try reflexivity.
  intros z Hz. eexists. split; [reflexivity |].
  exact (lambertw_ref_principal z Hz).
Qed.

Section Overflow.

Variable lambertw : float64 -> Z -> C64.
Hypothesis lambertw_principal : principal_branch64 lambertw.

(** The valid parameters [K_M = 0.01], [S_0 = 15], with the constants
    [K_cat = 30] and [E_0 = 0.5] of the notebook, at [t = 0]:
    [np.exp(1500)] overflows. *)
Local Abbreviation S64 := (plot_func_f64.S lambertw 0.01 30 15 0.5).
Local Abbreviation ES64 := (plot_func_f64.ES 0.01 0.5).
Local Abbreviation E64 := (plot_func_f64.E lambertw 0.01 30 15 0.5).
Local Abbreviation P64 := (plot_func_f64.P 15).

Lemma S64_overflows : S64 0 = ret PInf.
Proof.
  pose proof max_float_million as Hm.
  destruct lambertw_principal as [_ [Hinf _]].
  unfold plot_func_f64.S, plot_func_f64.v_max.
  rewrite !py_fdiv_ok by lra. cbn [bind ret fmul].
  rewrite (overflow_fin (30 * 0.5)) by lra. cbn [fopp fmul].
  rewrite (overflow_fin (- (30 * 0.5) * 0)) by lra. cbn [fadd].
  rewrite (overflow_fin (- (30 * 0.5) * 0 + 15)) by lra.
  rewrite (overflow_fin (1 / 0.01)) by lra. cbn [fmul].
  replace (1 / 0.01 * (- (30 * 0.5) * 0 + 15)) with 1500 by lra.
  rewrite (overflow_fin 1500) by lra. cbn [fexp].
  rewrite (overflow_pinf (exp 1500)) by exact exp_1500_overflows.
  rewrite (overflow_fin (15 / 0.01)) by lra. cbn [fmul].
  rewrite inf_sign_pos by lra.
  unfold plot_func_f64.W. rewrite Hinf.
  now rewrite inf_sign_pos by lra.
Qed.

Lemma ES64_overflows : ES64 0 S64 = ret NaN.
Proof.
  unfold plot_func_f64.ES. rewrite S64_overflows. cbn [bind ret fmul fadd].
  now rewrite inf_sign_pos by lra.
Qed.

Lemma E64_overflows : E64 0 ES64 = ret NaN.
Proof. unfold plot_func_f64.E. now rewrite ES64_overflows. Qed.

Lemma P64_overflows : P64 0 S64 ES64 = ret NaN.
Proof.
  unfold plot_func_f64.P. now rewrite S64_overflows, ES64_overflows.
Qed.

End Overflow.

(** ** What a finite result tells *)

Lemma ret_inj {A : Type} (x y : A) : ret x = ret y -> x = y.
Proof. now intros [=]. Qed.

Section Finite.

Variable lambertw : float64 -> Z -> C64.
Variables K_M K_cat S_0 E_0 : R.

Local Abbreviation S64 := (plot_func_f64.S lambertw K_M K_cat S_0 E_0).
Local Abbreviation ES64 := (plot_func_f64.ES K_M E_0).
Local Abbreviation E64 := (plot_func_f64.E lambertw K_M K_cat S_0 E_0).
Local Abbreviation P64 := (plot_func_f64.P S_0).

(** A finite [E(t)] comes from a finite [ES(t)]. *)
Lemma E64_finite_inv (t e : R) :
  E64 t ES64 = ret (Fin e) ->
  exists es : R, ES64 t S64 = ret (Fin es) /\ e = E_0 - es.
Proof.
  unfold plot_func_f64.E.
  destruct (ES64 t S64) as [ex | x]; cbn [bind ret]; intro H;
    [discriminate H |].
  apply ret_inj in H. apply fsub_fin_inv in H.
  destruct H as [a [es [Ha [-> ->]]]]. injection Ha as <-.
  now exists es.
Qed.

(** A finite [P(t)] comes from a finite [S(t)] and a finite [ES(t)]. *)
Lemma P64_finite_inv (t p : R) :
  P64 t S64 ES64 = ret (Fin p) ->
  exists s es : R,
    S64 t = ret (Fin s) /\ ES64 t S64 = ret (Fin es) /\ p = S_0 - s - es.
Proof.
  unfold plot_func_f64.P.
  destruct (S64 t) as [ex | x]; cbn [bind ret]; intro H; [discriminate H |].
  destruct (ES64 t (plot_func_f64.S lambertw K_M K_cat S_0 E_0)) as [ex | y];
    cbn [bind ret] in H; [discriminate H |].
  apply ret_inj in H. apply fsub_fin_inv in H.
  destruct H as [d [es [Hd [-> ->]]]].
  apply fsub_fin_inv in Hd. destruct Hd as [a [s [Ha [-> ->]]]].
  injection Ha as <-. now exists s, es.
Qed.

(** A finite [ES(0)] is zero. *)
Lemma ES64_initial (es : R) : ES64 0 S64 = ret (Fin es) -> es = 0.
Proof.
  unfold plot_func_f64.ES.
  destruct (S64 0) as [ex | s]; cbn [bind ret]; intro H; [discriminate H |].
  apply ret_inj in H. apply fmul_fin_inv in H.
  destruct H as [q [g [_ [Hg ->]]]].
  apply fsub_fin_inv in Hg. destruct Hg as [a [e [Ha [He ->]]]].
  injection Ha as <-.
  apply fexp_fin_inv in He.
  destruct (fmul_zero_r (fmul (fopp (fadd (Fin K_M) s)) (Fin Globals.k_1)))
    as [Hz | Hz]; rewrite Hz in He.
  - destruct He as [[x [Hx ->]] | [Hx _]]; [| discriminate Hx].
    injection Hx as <-. rewrite exp_0. ring.
  - destruct He as [[x [Hx _]] | [Hx _]]; discriminate Hx.
Qed.

End Finite.

(** C1 (as stated, refuted): [K_M = 0.01], [E_0 = 0.5], [S_0 = 15] is a
    valid parameter set, yet at [t = 0] both [E] and [ES] are NaN, so that
    they are not two numbers that add up to [E_0]. *)
Lemma C1_overflow_counterexample :
  (0 < 0.01 /\ 0 <= 0.5 /\ 0 <= 15) /\
  plot_func_f64.E lambertw_ref64 0.01 30 15 0.5 0 (plot_func_f64.ES 0.01 0.5)
    = ret NaN /\
  plot_func_f64.ES 0.01 0.5 0 (plot_func_f64.S lambertw_ref64 0.01 30 15 0.5)
    = ret NaN /\
  ~ (exists e es : R,
       plot_func_f64.E lambertw_ref64 0.01 30 15 0.5 0 (plot_func_f64.ES 0.01 0.5)
         = ret (Fin e) /\
       plot_func_f64.ES 0.01 0.5 0 (plot_func_f64.S lambertw_ref64 0.01 30 15 0.5)
         = ret (Fin es) /\
       Rabs (e + es - 0.5) <= 1e-6).
Proof.
  pose proof (E64_overflows lambertw_ref64 lambertw_ref64_principal) as HE.
  pose proof (ES64_overflows lambertw_ref64 lambertw_ref64_principal) as HES.
  split; [lra |]. split; [exact HE |]. split; [exact HES |].
  intros [e [es [He _]]]. rewrite HE in He. discriminate He.
Qed.

(** C1 (amended): for valid parameters and [t >= 0], whenever the code's
    [E(t)] is a finite number, so is [ES(t)] and the two add up to [E_0]
    within [1e-6]; this is the case for all parameters within the ranges of
    the sliders and all times of their grids. *)
Theorem C1_conservation_when_finite
        (lambertw : float64 -> Z -> C64) (K_M K_cat S_0 E_0 t : R) :
  principal_branch64 lambertw ->
  0 < K_M -> 0 <= E_0 -> 0 <= S_0 -> 0 <= t ->
  (forall e : R,
     plot_func_f64.E lambertw K_M K_cat S_0 E_0 t (plot_func_f64.ES K_M E_0)
       = ret (Fin e) ->
     exists es : R,
       plot_func_f64.ES K_M E_0 t (plot_func_f64.S lambertw K_M K_cat S_0 E_0)
         = ret (Fin es) /\
       Rabs (e + es - E_0) <= 1e-6) /\
  (slider_ranges K_M K_cat S_0 E_0 t ->
   exists e es : R,
     plot_func_f64.E lambertw K_M K_cat S_0 E_0 t (plot_func_f64.ES K_M E_0)
       = ret (Fin e) /\
     plot_func_f64.ES K_M E_0 t (plot_func_f64.S lambertw K_M K_cat S_0 E_0)
       = ret (Fin es) /\
     Rabs (e + es - E_0) <= 1e-6).
Proof.
  intros Hw _ _ _ _.
  assert (Htol : forall e es : R, e = E_0 - es -> Rabs (e + es - E_0) <= 1e-6).
  { intros e es ->. replace (E_0 - es + es - E_0) with 0 by ring.
    rewrite Rabs_R0. lra. }
  split.
  - intros e He. apply E64_finite_inv in He. destruct He as [es [Hes He]].
    exists es. split; [exact Hes | now apply Htol].
  - intro Hr. eexists. eexists.
    split; [now apply E64_sliders |]. split; [now apply ES64_sliders |].
    now apply Htol.
Qed.

Lemma slider_point : slider_ranges 1 1 1 1 2.
Proof. unfold slider_ranges. lra. Qed.

Lemma C1_conservation_when_finite_witness :
  exists e es : R,
    plot_func_f64.E lambertw_ref64 1 1 1 1 2 (plot_func_f64.ES 1 1)
      = ret (Fin e) /\
    plot_func_f64.ES 1 1 2 (plot_func_f64.S lambertw_ref64 1 1 1 1)
      = ret (Fin es) /\
    Rabs (e + es - 1) <= 1e-6.
Proof.
  apply (C1_conservation_when_finite lambertw_ref64 1 1 1 1 2
           lambertw_ref64_principal); try lra.
  exact slider_point.
Defined.




(** C10 (as stated, refuted): for the valid parameters [K_M = 0.01],
    [S_0 = 15], [E_0 = 0.5] the code's [ES(0)], [E(0)] and [P(0)] are NaN,
    not [0], [E_0] and [S_0 - S(0)]. *)
Lemma C10_overflow_counterexample :
  (0 < 0.01 /\ 0 <= 0.5 /\ 0 <= 15) /\
  plot_func_f64.ES 0.01 0.5 0 (plot_func_f64.S lambertw_ref64 0.01 30 15 0.5)
    = ret NaN /\
  plot_func_f64.E lambertw_ref64 0.01 30 15 0.5 0 (plot_func_f64.ES 0.01 0.5)
    = ret NaN /\
  plot_func_f64.P 15 0 (plot_func_f64.S lambertw_ref64 0.01 30 15 0.5)
                       (plot_func_f64.ES 0.01 0.5)
    = ret NaN /\
  plot_func_f64.ES 0.01 0.5 0 (plot_func_f64.S lambertw_ref64 0.01 30 15 0.5)
    <> ret (Fin 0).
Proof.
  pose proof (ES64_overflows lambertw_ref64 lambertw_ref64_principal) as HES.
  split; [lra |]. split; [exact HES |].
  split; [exact (E64_overflows lambertw_ref64 lambertw_ref64_principal) |].
  split; [exact (P64_overflows lambertw_ref64 lambertw_ref64_principal) |].
  rewrite HES. discriminate.
Qed.

(** C10 (amended): whenever the code's [E(0)] and [P(0)] are finite
    numbers, [ES(0)] is exactly [0], [E(0)] is [E_0] and [P(0)] is
    [S_0 - S(0)]; this is the case for all parameters within the ranges of
    the sliders. *)
Theorem C10_initial_complex_when_finite
        (lambertw : float64 -> Z -> C64) (K_M K_cat S_0 E_0 : R) :
  principal_branch64 lambertw ->
  (forall e p : R,
     plot_func_f64.E lambertw K_M K_cat S_0 E_0 0 (plot_func_f64.ES K_M E_0)
       = ret (Fin e) ->
     plot_func_f64.P S_0 0 (plot_func_f64.S lambertw K_M K_cat S_0 E_0)
                           (plot_func_f64.ES K_M E_0)
       = ret (Fin p) ->
     plot_func_f64.ES K_M E_0 0 (plot_func_f64.S lambertw K_M K_cat S_0 E_0)
       = ret (Fin 0) /\
     e = E_0 /\
     exists s : R,
       plot_func_f64.S lambertw K_M K_cat S_0 E_0 0 = ret (Fin s) /\
       p = S_0 - s) /\
  (slider_ranges K_M K_cat S_0 E_0 0 ->
   exists e p : R,
     plot_func_f64.E lambertw K_M K_cat S_0 E_0 0 (plot_func_f64.ES K_M E_0)
       = ret (Fin e) /\
     plot_func_f64.P S_0 0 (plot_func_f64.S lambertw K_M K_cat S_0 E_0)
                           (plot_func_f64.ES K_M E_0)
       = ret (Fin p)).
Proof.
  intro Hw. split.
  - intros e p He Hp.
    apply E64_finite_inv in He. destruct He as [es [Hes ->]].
    apply P64_finite_inv in Hp. destruct Hp as [s [es' [Hs [Hes' ->]]]].
    pose proof (ES64_initial lambertw K_M K_cat S_0 E_0 es Hes) as H0.
    pose proof (ES64_initial lambertw K_M K_cat S_0 E_0 es' Hes') as H0'.
    subst es es'.
    split; [exact Hes |]. split; [ring |].
    exists s. split; [exact Hs | ring].
  - intro Hr. eexists. eexists.
    split; [now apply E64_sliders | now apply P64_sliders].
Qed.

Lemma C10_initial_complex_when_finite_witness :
  exists e p : R,
    plot_func_f64.E lambertw_ref64 1 1 1 1 0 (plot_func_f64.ES 1 1)
      = ret (Fin e) /\
    plot_func_f64.P 1 0 (plot_func_f64.S lambertw_ref64 1 1 1 1)
                        (plot_func_f64.ES 1 1)
      = ret (Fin p).
Proof.
  apply (C10_initial_complex_when_finite lambertw_ref64 1 1 1 1
           lambertw_ref64_principal).
  unfold slider_ranges. lra.
Defined.

(** ** Bounds within the ranges of the sliders *)

(** Within the ranges of the sliders [S(t)] is a finite number between [0]
    and [S_0], up to [1e-6]. *)
Theorem substrate_bounds_sliders
        (lambertw : float64 -> Z -> C64) (K_M K_cat S_0 E_0 t : R) :
  principal_branch64 lambertw -> slider_ranges K_M K_cat S_0 E_0 t ->
  exists s : R,
    plot_func_f64.S lambertw K_M K_cat S_0 E_0 t = ret (Fin s) /\
    - 1e-6 <= s <= S_0 + 1e-6.
Proof.
  intros Hw Hr. eexists. split; [now apply S64_sliders |].
  pose proof (S_at_range lambertw Hw K_M K_cat S_0 E_0 t Hr). lra.
Qed.

Lemma substrate_bounds_sliders_witness :
  exists s : R,
    plot_func_f64.S lambertw_ref64 1 1 1 1 2 = ret (Fin s) /\
    - 1e-6 <= s <= 1 + 1e-6.
Proof.
  apply (substrate_bounds_sliders lambertw_ref64 1 1 1 1 2
           lambertw_ref64_principal slider_point).
Defined.



(** Within the ranges of the sliders the complex and the free enzyme are
    finite numbers between [0] and [E_0], up to [1e-6]. *)
Theorem enzyme_bounds_sliders
        (lambertw : float64 -> Z -> C64) (K_M K_cat S_0 E_0 t : R) :
  principal_branch64 lambertw -> slider_ranges K_M K_cat S_0 E_0 t ->
  exists es e : R,
    plot_func_f64.ES K_M E_0 t (plot_func_f64.S lambertw K_M K_cat S_0 E_0)
      = ret (Fin es) /\
    plot_func_f64.E lambertw K_M K_cat S_0 E_0 t (plot_func_f64.ES K_M E_0)
      = ret (Fin e) /\
    - 1e-6 <= es <= E_0 + 1e-6 /\ - 1e-6 <= e <= E_0 + 1e-6.
Proof.
  intros Hw Hr. eexists. eexists.
  split; [now apply ES64_sliders |]. split; [now apply E64_sliders |].
  pose proof (ES_at_range lambertw Hw K_M K_cat S_0 E_0 t Hr). lra.
Qed.

Lemma enzyme_bounds_sliders_witness :
  exists es e : R,
    plot_func_f64.ES 1 1 2 (plot_func_f64.S lambertw_ref64 1 1 1 1)
      = ret (Fin es) /\
    plot_func_f64.E lambertw_ref64 1 1 1 1 2 (plot_func_f64.ES 1 1)
      = ret (Fin e) /\
    - 1e-6 <= es <= 1 + 1e-6 /\ - 1e-6 <= e <= 1 + 1e-6.
Proof.
  apply (enzyme_bounds_sliders lambertw_ref64 1 1 1 1 2
           lambertw_ref64_principal slider_point).
Defined.

Lemma v64_sliders (lambertw : float64 -> Z -> C64) (K_M K_cat S_0 E_0 t : R) :
  principal_branch64 lambertw -> slider_ranges K_M K_cat S_0 E_0 t ->
  exists s : R,
    plot_func.S (real_lambertw lambertw) K_M K_cat S_0 E_0 t = ret s /\
    0 <= s <= S_0 /\
    plot_func_f64.v K_M K_cat E_0 t (plot_func_f64.S lambertw K_M K_cat S_0 E_0)
      = ret (Fin (K_cat * E_0 * (s / (K_M + s)))).
Proof.
  intros Hw Hr.
  pose proof (S_at_range lambertw Hw K_M K_cat S_0 E_0 t Hr) as Hs.
  pose proof (S64_sliders lambertw Hw K_M K_cat S_0 E_0 t Hr) as HS64.
  destruct Hr as [HK [Hc [HS [HE Ht]]]].
  pose proof max_float_million as Hm.
  eexists. split; [apply S_ok; lra |]. split; [exact Hs |].
  unfold plot_func_f64.v, plot_func_f64.v_max. rewrite HS64.
  cbn [bind ret fmul fadd].
  set (s := K_M * _) in *.
  destruct (saturation_bounds K_M s ltac:(lra) (proj1 Hs)) as [Hq0 Hq1].
  assert (Hv : 0 <= K_cat * E_0 <= 50) by nra.
  rewrite (overflow_fin (K_cat * E_0)) by lra. cbn [fmul].
  assert (Hp : 0 <= K_cat * E_0 * s <= 2500) by nra.
  rewrite (overflow_fin (K_cat * E_0 * s)) by lra.
  rewrite (overflow_fin (K_M + s)) by lra. cbn [fdiv].
  destruct (Req_dec_T (K_M + s) 0) as [H0 | _]; [lra |].
  replace (K_cat * E_0 * s / (K_M + s)) with (K_cat * E_0 * (s / (K_M + s)))
    by (field; lra).
  rewrite overflow_fin by nra. reflexivity.
Qed.

(** Within the ranges of the sliders the flux is a finite number that,
    up to [1e-6], is non-negative, does not exceed [v_max = K_cat * E_0] and
    does not increase with time; at [t = 0] it is
    [v_max * S_0 / (K_M + S_0)]. *)
Theorem flux_bounds_sliders
        (lambertw : float64 -> Z -> C64) (K_M K_cat S_0 E_0 t1 t2 : R) :
  principal_branch64 lambertw ->
  slider_ranges K_M K_cat S_0 E_0 t1 -> slider_ranges K_M K_cat S_0 E_0 t2 ->
  t1 <= t2 ->
  exists f0 f1 f2 : R,
    plot_func_f64.v K_M K_cat E_0 0 (plot_func_f64.S lambertw K_M K_cat S_0 E_0)
      = ret (Fin f0) /\
    plot_func_f64.v K_M K_cat E_0 t1 (plot_func_f64.S lambertw K_M K_cat S_0 E_0)
      = ret (Fin f1) /\
    plot_func_f64.v K_M K_cat E_0 t2 (plot_func_f64.S lambertw K_M K_cat S_0 E_0)
      = ret (Fin f2) /\
    - 1e-6 <= f2 /\ f2 <= f1 + 1e-6 /\ f1 <= K_cat * E_0 + 1e-6 /\
    Rabs (f0 - K_cat * E_0 * S_0 / (K_M + S_0)) <= 1e-6.
Proof.
  intros Hw Hr1 Hr2 Ht.
  assert (Hr0 : slider_ranges K_M K_cat S_0 E_0 0)
    by (unfold slider_ranges in *; lra).
  pose proof (real_lambertw_principal lambertw Hw) as HwR.
  destruct (v64_sliders lambertw K_M K_cat S_0 E_0 0 Hw Hr0) as [s0 [Hs0 [Hb0 Hv0]]].
  destruct (v64_sliders lambertw K_M K_cat S_0 E_0 t1 Hw Hr1) as [s1 [Hs1 [Hb1 Hv1]]].
  destruct (v64_sliders lambertw K_M K_cat S_0 E_0 t2 Hw Hr2) as [s2 [Hs2 [Hb2 Hv2]]].
  destruct Hr1 as [HK [Hc [HS [HE Ht1]]]].
  exists (K_cat * E_0 * (s0 / (K_M + s0))),
         (K_cat * E_0 * (s1 / (K_M + s1))),
         (K_cat * E_0 * (s2 / (K_M + s2))).
  split; [exact Hv0 |]. split; [exact Hv1 |]. split; [exact Hv2 |].
  assert (H0 : s0 = S_0).
  { rewrite S_ok in Hs0 by lra. apply ret_inj in Hs0. rewrite <- Hs0.
    apply (S_at_0 _ HwR); lra. }
  assert (H12 : s2 <= s1).
  { rewrite S_ok in Hs1, Hs2 by lra.
    apply ret_inj in Hs1. apply ret_inj in Hs2. rewrite <- Hs1, <- Hs2.
    apply (S_at_antitone _ HwR); lra. }
  assert (Hv : 0 <= K_cat * E_0) by nra.
  destruct (saturation_bounds K_M s1 ltac:(lra) (proj1 Hb1)) as [Ha0 Ha1].
  destruct (saturation_bounds K_M s2 ltac:(lra) (proj1 Hb2)) as [Hc0 Hc1].
  pose proof (saturation_monotone K_M s2 s1 ltac:(lra) (proj1 Hb2) H12) as Hmono.
  split; [nra |]. split; [nra |]. split; [nra |].
  rewrite H0.
  replace (K_cat * E_0 * (S_0 / (K_M + S_0)) - K_cat * E_0 * S_0 / (K_M + S_0))
    with 0 by (field; lra).
  rewrite Rabs_R0. lra.
Qed.

Lemma flux_bounds_sliders_witness :
  exists f0 f1 f2 : R,
    plot_func_f64.v 1 1 1 0 (plot_func_f64.S lambertw_ref64 1 1 1 1)
      = ret (Fin f0) /\
    plot_func_f64.v 1 1 1 1 (plot_func_f64.S lambertw_ref64 1 1 1 1)
      = ret (Fin f1) /\
    plot_func_f64.v 1 1 1 2 (plot_func_f64.S lambertw_ref64 1 1 1 1)
      = ret (Fin f2) /\
    - 1e-6 <= f2 /\ f2 <= f1 + 1e-6 /\ f1 <= 1 * 1 + 1e-6 /\
    Rabs (f0 - 1 * 1 * 1 / (1 + 1)) <= 1e-6.
Proof.
  apply (flux_bounds_sliders lambertw_ref64 1 1 1 1 1 2 lambertw_ref64_principal);
    unfold slider_ranges; lra.
Defined.

(** ** [plot_funct] on a non-positive [n] *)

(** C4 (as stated, refuted): on [n = 0] and on [n = -3] the root loop
    returns the empty point sequence, and what then stops [plot_funct] is
    the [IndexError] of the first [connectpoints], not the check of an
    argument. *)
Lemma C4_index_error_counterexample :
  plot_funct 0 = ret ([], []) /\ plot_funct_drawn 0 = inl IndexError /\
  plot_funct (-3) = ret ([], []) /\ plot_funct_drawn (-3) = inl IndexError.
Proof.
  assert (H : forall n : Z, (n <= 0)%Z ->
            plot_funct n = ret ([], []) /\ plot_funct_drawn n = inl IndexError).
  { intros n Hn. unfold plot_funct_drawn.
    rewrite plot_funct_total, range_nonpos by exact Hn.
    cbn [map ret]. now rewrite draw_edges_nil. }
  destruct (H 0%Z ltac:(lia)) as [H1 H2].
  destruct (H (-3)%Z ltac:(lia)) as [H3 H4].
  repeat split; assumption.
Qed.

(** C4 (amended): for every [n <= 0], [plot_funct(n)] fails rather than
    returning: the loop over [range(n)] runs no iteration and leaves both
    lists empty, and the first [connectpoints] raises [IndexError]; nothing
    checks the argument. *)
Theorem C4_nonpositive_index_error (n : Z) :
  (n <= 0)%Z ->
  plot_funct n = ret ([], []) /\ plot_funct_drawn n = inl IndexError.
Proof.
  intro Hn. unfold plot_funct_drawn.
  rewrite plot_funct_total, range_nonpos by exact Hn.
  cbn [map ret]. now rewrite draw_edges_nil.
Qed.

Lemma C4_nonpositive_index_error_witness :
  plot_funct (-3) = ret ([], []) /\ plot_funct_drawn (-3) = inl IndexError.
Proof. apply (C4_nonpositive_index_error (-3)). lia. Defined.
